(** * Remote command executor: session registry and command framing

    A shallow embedding of [main.go]: the [Session] and [SessionManager]
    types, [CreateSession], [GetSession], [EndSession] and
    [Session.RunCommand], followed by the properties of the framing
    protocol and of the session lifecycle.

    Conventions.
    - A Go [string] is a [string]; a [[]byte] is a [list byte]; the
      conversions [[]byte(s)] and [string(b)] are [list_byte_of_string] and
      [string_of_list_byte].
    - [len] and slice indices are [nat]: every subtraction the code performs
      on them is guarded so that it cannot go below zero.
    - [io.WriteCloser] and [io.ReadCloser] are interfaces, hence type
      classes; the operating system decides what a [Read] or a [Write]
      returns.
    - [*Session] is a location in a heap of sessions, so that a reference
      kept by a caller and the entry of the registry are the same object.
    - [uuid.New().String()] is a sequence of strings, [uuid k] being the
      value of the [k]-th call.
    - A loop that may not end takes a number of iterations it may make,
      and returns [None] when they do not suffice. Every [Read] returns:
      a read that blocks for ever has no place here.
    - [log.Printf] calls are not modelled. Line numbers are those of
      [main.go].

    The file has four parts: the program; the vocabulary of its
    properties; the streams and the data of the examples; the proofs. *)

From Stdlib Require Import ZArith List Lia String Strings.Byte Bool Ascii.
From stdpp Require Import base option gmap strings list relations.

Local Open Scope string_scope.
Local Open Scope list_scope.

(** * The program *)

(** ** Errors *)

(** A Go [error]: the sentinel [io.EOF], or an error carrying a message
    (what [fmt.Errorf] builds, and what the operating system reports). *)
Inductive error : Type :=
  | io_EOF
  | errorString (msg : string).

(** [err.Error()] *)
Definition Error (e : error) : string :=
  match e with
  | io_EOF => "EOF"
  | errorString msg => msg
  end.

(** [fmt.Errorf(prefix + "%v", err)] *)
Definition Errorf_v (prefix : string) (err : error) : error :=
  errorString (prefix +:+ Error err).

(** [fmt.Errorf(prefix + "%s", s)] *)
Definition Errorf_s (prefix : string) (s : string) : error :=
  errorString (prefix +:+ s).

(** [err != nil && err != io.EOF] *)
Definition isFailure (err : option error) : bool :=
  match err with
  | None => false
  | Some io_EOF => false
  | Some (errorString _) => true
  end.

(** The error kinds of the specification, as classes of the errors the code
    builds. *)
Definition NotRunningError (e : error) : Prop :=
  e = errorString "session is not running".

Definition WriteError (e : error) : Prop :=
  exists cause, e = Errorf_v "failed to write command: " cause.

Definition ReadError (e : error) : Prop :=
  exists cause, e = Errorf_v "failed to read output: " cause.

Definition NotFoundError (e : error) : Prop :=
  exists id, e = Errorf_s "session not found: " id.

(** ** The stream interfaces *)

(** [io.WriteCloser]: [Write p] returns the number of bytes written and an
    error; [Close] returns an error. Both may change the stream. *)
Class WriteCloser (W : Type) : Type := {
  Write : W -> list byte -> W * (nat * option error);
  Close : W -> W * option error
}.

(** [io.ReadCloser], of which only [Read] is called. [Read r cap] stands
    for [r.Read(p)] with [len(p) = cap]: it returns the bytes stored in
    [p[:n]] (so [n] is their number) and an error. The contract of
    [io.Reader] bounds [n] by [len(p)]. *)
Class ReadCloser (R : Type) : Type := {
  Read : R -> nat -> R * (list byte * option error);
  Read_bound : forall r cap, length (fst (snd (Read r cap))) <= cap
}.

(** ** Strings and byte slices *)

Definition LF : ascii := "010"%char.
Definition CR : ascii := "013"%char.

(** [len(s) > 0 && s[len(s)-1] == c] *)
Definition endsWith (s : string) (c : ascii) : bool :=
  (0 <? String.length s)%nat &&
  match String.get (String.length s - 1) s with
  | Some x => Ascii.eqb x c
  | None => false
  end.

(** [s[:len(s)-1]] *)
Definition dropLast (s : string) : string :=
  String.substring 0 (String.length s - 1) s.

(** Lines 163-168: the two [if]s that clean the end of the result. *)
Definition trimTerminator (result : string) : string :=
  let result := if endsWith result LF then dropLast result else result in
  let result := if endsWith result CR then dropLast result else result in
  result.

(** [b[lo:hi]] for [lo <= hi <= len(b)] *)
Definition slice (b : list byte) (lo hi : nat) : list byte :=
  firstn (hi - lo) (skipn lo b).

(** [string(output[i:i+len(markerBytes)]) == marker] *)
Definition markerAt (output : list byte) (marker : string) (i : nat) : bool :=
  String.eqb
    (string_of_list_byte
       (slice output i (i + length (list_byte_of_string marker))))
    marker.

(** The inner [for] of lines 158-173, [count] iterations from [i] on:
    the first index at which the marker is read, if any. *)
Fixpoint scanFrom (output : list byte) (marker : string) (i count : nat)
  : option nat :=
  match count with
  | 0 => None
  | S count' =>
      if markerAt output marker i then Some i
      else scanFrom output marker (S i) count'
  end.

(** Lines 156-174: the guard [len(output) >= len(markerBytes)] and the loop
    [for i := len(output) - n; i <= len(output)-len(markerBytes); i++]. *)
Definition findMarker (output : list byte) (n : nat) (marker : string)
  : option nat :=
  let m := length (list_byte_of_string marker) in
  if (m <=? length output)%nat then
    let first := length output - n in
    let last := length output - m in
    scanFrom output marker first (S last - first)
  else None.

(** ** The read loop *)

(** [1024*1024], the bound of line 178. *)
Definition maxOutput : Z := 1024 * 1024.

(** [len(buffer)], line 142. *)
Definition bufferSize : nat := 1024.

(** What one iteration of the [for] of line 145 does after its [Read]. *)
Inductive iteration : Type :=
  | Return (result : string) (err : option error)
  | Break (output : list byte)
  | Continue (output : list byte).

(** Lines 147-181, given what [s.Stdout.Read(buffer)] returned. *)
Definition loopBody (marker : string) (output : list byte)
    (rd : list byte * option error) : iteration :=
  let '(chunk, err) := rd in
  let n := length chunk in
  if isFailure err then
    Return "" (option_map (Errorf_v "failed to read output: ") err)
  else
    let output := if (0 <? n)%nat then output ++ chunk else output in
    match (if (0 <? n)%nat then findMarker output n marker else None) with
    | Some i =>
        Return (trimTerminator (string_of_list_byte (slice output 0 i))) None
    | None =>
        if (maxOutput <? Z.of_nat (length output))%Z then Break output
        else Continue output
    end.

(** A [*Session] is a location of the heap of sessions. *)
Abbreviation ref := positive.

Section Session.

Context {W R : Type} `{WriteCloser W} `{ReadCloser R}.

(** Lines 145-187. [fuel] bounds the number of iterations; [None] means
    that the loop is still running after [fuel] iterations. *)
Fixpoint readLoop (fuel : nat) (marker : string) (stdout : R)
    (output : list byte) : option (R * (string * option error)) :=
  match fuel with
  | 0 => None
  | S fuel' =>
      let '(stdout', rd) := Read stdout bufferSize in
      match loopBody marker output rd with
      | Return result err => Some (stdout', (result, err))
      | Break output' => Some (stdout', (string_of_list_byte output', None))
      | Continue output' => readLoop fuel' marker stdout' output'
      end
  end.

(** ** Sessions *)

(** [Cmd.Process], of which only [Kill] is called. *)
Inductive Process : Type := Alive | Killed.

Definition Kill (p : Process) : Process := Killed.

Record Session : Type := mkSession {
  ID : string;
  Cmd : Process;
  Stdin : W;
  Stdout : R;
  Stderr : R;
  Running : bool
}.

Definition withStdin (s : Session) (w : W) : Session :=
  mkSession (ID s) (Cmd s) w (Stdout s) (Stderr s) (Running s).

Definition withStdout (s : Session) (r : R) : Session :=
  mkSession (ID s) (Cmd s) (Stdin s) r (Stderr s) (Running s).

(** Line 132. *)
Definition fullCommand (command marker : string) : string :=
  "& { " +:+ command +:+ " } *>&1 | Out-String; Write-Host '" +:+ marker
  +:+ "'" +:+ String LF EmptyString.

(** [Session.RunCommand] between [s.mu.Lock()] and the deferred
    [s.mu.Unlock()]. [marker] is the value [uuid.New().String()] returns on
    line 130; it is drawn only when the session is running. The session is
    returned as the call leaves it. *)
Definition RunCommand (fuel : nat) (marker : string) (s : Session)
    (command : string) : option (Session * (string * option error)) :=
  if negb (Running s) then
    Some (s, ("", Some (errorString "session is not running")))
  else
    let '(stdin', (_, err)) :=
      Write (Stdin s) (list_byte_of_string (fullCommand command marker)) in
    let s := withStdin s stdin' in
    match err with
    | Some e => Some (s, ("", Some (Errorf_v "failed to write command: " e)))
    | None =>
        match readLoop fuel marker (Stdout s) [] with
        | None => None
        | Some (stdout', res) => Some (withStdout s stdout', res)
        end
    end.

(** ** The registry *)

(** Values of [uuid.New().String()]: [uuid k] is what the [k]-th call of
    the program returns. *)
Context (uuid : nat -> string).

(** The state of the program: the sessions that were allocated,
    [sessionManager.sessions], and the number of UUIDs drawn so far. *)
Record State : Type := mkState {
  heap : gmap positive Session;
  sessions : gmap string positive;
  drawn : nat
}.

(** [NewSessionManager], before any UUID was drawn. *)
Definition NewSessionManager : State := mkState ∅ ∅ 0.

(** What the operating system answers to lines 46-65: one of the four
    calls fails, or the process starts with its three pipes. *)
Inductive Spawn : Type :=
  | StdinPipeFails (e : error)
  | StdoutPipeFails (e : error)
  | StderrPipeFails (e : error)
  | StartFails (e : error)
  | Started (stdin : W) (stdout stderr : R).

(** [SessionManager.CreateSession]. *)
Definition CreateSession (os : Spawn) (st : State)
  : State * (option ref * option error) :=
  let sessionID := uuid (drawn st) in
  let st := mkState (heap st) (sessions st) (S (drawn st)) in
  match os with
  | StdinPipeFails e =>
      (st, (None, Some (Errorf_v "failed to create stdin pipe: " e)))
  | StdoutPipeFails e =>
      (st, (None, Some (Errorf_v "failed to create stdout pipe: " e)))
  | StderrPipeFails e =>
      (st, (None, Some (Errorf_v "failed to create stderr pipe: " e)))
  | StartFails e =>
      (st, (None, Some (Errorf_v "failed to start powershell: " e)))
  | Started stdin stdout stderr =>
      let session := mkSession sessionID Alive stdin stdout stderr true in
      let p := fresh (dom (heap st)) in
      (mkState (<[p := session]> (heap st))
               (<[sessionID := p]> (sessions st))
               (drawn st),
       (Some p, None))
  end.

(** [SessionManager.GetSession]. *)
Definition GetSession (sessionID : string) (st : State) : option ref * bool :=
  match sessions st !! sessionID with
  | Some p => (Some p, true)
  | None => (None, false)
  end.

(** Lines 106-110 of [EndSession], on the session. *)
Definition terminate (session : Session) : Session :=
  if Running session then
    mkSession (ID session) (Kill (Cmd session))
              (fst (Close (Stdin session)))
              (Stdout session) (Stderr session) false
  else session.

(** [SessionManager.EndSession]. *)
Definition EndSession (sessionID : string) (st : State)
  : State * option error :=
  match sessions st !! sessionID with
  | None => (st, Some (Errorf_s "session not found: " sessionID))
  | Some p =>
      (mkState (alter terminate p (heap st))
               (delete sessionID (sessions st))
               (drawn st),
       None)
  end.

(** [s.RunCommand(command)] for the reference [p]: the marker is the next
    UUID, drawn when the session is running. [None]: the call has not
    returned after [fuel] iterations of its loop (or [p] is no session,
    which no reference of the program is). *)
Definition Session_RunCommand (fuel : nat) (p : ref) (command : string)
    (st : State) : option (State * (string * option error)) :=
  match heap st !! p with
  | None => None
  | Some s =>
      match RunCommand fuel (uuid (drawn st)) s command with
      | None => None
      | Some (s', res) =>
          Some (mkState (<[p := s']> (heap st)) (sessions st)
                        (if Running s then S (drawn st) else drawn st),
                res)
      end
  end.

End Session.

Arguments Session : clear implicits.
Arguments State : clear implicits.
Arguments Spawn : clear implicits.

(** ** Concurrent calls on one session *)

(** Goroutines that call methods on one session, interleaved step by
    step. The session and its mutex [s.mu] are shared; each goroutine has
    the place it has reached in its call. [Lock] returns only when the
    mutex is free, and the deferred [Unlock] runs at every [return]. *)

Section Goroutines.

Context {W R : Type} `{WriteCloser W} `{ReadCloser R}.
Context (uuid : nat -> string).

(** The calls that lock [s.mu]: [s.RunCommand(command)], and
    [EndSession] for its part on the session, lines 103-110. *)
Inductive call : Type :=
  | CallRunCommand (command : string)
  | CallEndSession.

(** Where a goroutine is in its call. *)
Inductive place : Type :=
  | AtLock
  | AtCheck
  | AtWrite
  | AtRead (marker : string) (output : list byte)
  | AtTerminate
  | Returned (result : string) (err : option error).

Record Shared : Type := mkShared {
  mu : bool;
  session : Session W R;
  uuids : nat
}.

(** One step of a goroutine, [None] when it cannot move: it waits in
    [Lock], or it has returned.
    - [AtLock]: [Lock()] returns, lines 119 and 103;
    - [AtCheck]: the test of line 122;
    - [AtWrite]: the marker and the write, lines 130-138;
    - [AtRead]: one iteration of the loop, lines 146-181, and what follows
      it when it breaks;
    - [AtTerminate]: lines 106-110 and the return of [EndSession]. *)
Definition step (c : call) (at_ : place) (sh : Shared)
  : option (place * Shared) :=
  match at_, c with
  | AtLock, CallRunCommand _ =>
      if mu sh then None
      else Some (AtCheck, mkShared true (session sh) (uuids sh))
  | AtLock, CallEndSession =>
      if mu sh then None
      else Some (AtTerminate, mkShared true (session sh) (uuids sh))
  | AtCheck, CallRunCommand _ =>
      if negb (Running (session sh)) then
        Some (Returned "" (Some (errorString "session is not running")),
              mkShared false (session sh) (uuids sh))
      else Some (AtWrite, sh)
  | AtWrite, CallRunCommand command =>
      let marker := uuid (uuids sh) in
      let '(stdin', (_, err)) :=
        Write (Stdin (session sh))
              (list_byte_of_string (fullCommand command marker)) in
      let s := withStdin (session sh) stdin' in
      match err with
      | Some e =>
          Some (Returned "" (Some (Errorf_v "failed to write command: " e)),
                mkShared false s (S (uuids sh)))
      | None => Some (AtRead marker [], mkShared (mu sh) s (S (uuids sh)))
      end
  | AtRead marker output, CallRunCommand _ =>
      let '(stdout', rd) := Read (Stdout (session sh)) bufferSize in
      let s := withStdout (session sh) stdout' in
      match loopBody marker output rd with
      | Return result err =>
          Some (Returned result err, mkShared false s (uuids sh))
      | Break output' =>
          Some (Returned (string_of_list_byte output') None,
                mkShared false s (uuids sh))
      | Continue output' =>
          Some (AtRead marker output', mkShared (mu sh) s (uuids sh))
      end
  | AtTerminate, CallEndSession =>
      Some (Returned "" None,
            mkShared false (terminate (session sh)) (uuids sh))
  | _, _ => None
  end.

Record Config : Type := mkConfig {
  threads : list (call * place);
  shared : Shared
}.

(** Goroutine [i] makes a step. *)
Definition gstep (i : nat) (cfg : Config) : option Config :=
  match threads cfg !! i with
  | None => None
  | Some (c, at_) =>
      match step c at_ (shared cfg) with
      | None => None
      | Some (at', sh') =>
          Some (mkConfig (<[i := (c, at')]> (threads cfg)) sh')
      end
  end.

Definition steps (cfg cfg' : Config) : Prop :=
  exists i, gstep i cfg = Some cfg'.

(** The goroutines step in the order of a schedule. *)
Fixpoint run (schedule : list nat) (cfg : Config) : option Config :=
  match schedule with
  | [] => Some cfg
  | i :: schedule' =>
      match gstep i cfg with
      | None => None
      | Some cfg' => run schedule' cfg'
      end
  end.

End Goroutines.

Arguments Shared : clear implicits.
Arguments Config : clear implicits.

(** ** The HTTP handlers *)

(** [http.MethodPost] and the status codes of [net/http]. *)
Definition MethodPost : string := "POST".
Definition StatusBadRequest : nat := 400.
Definition StatusNotFound : nat := 404.
Definition StatusMethodNotAllowed : nat := 405.
Definition StatusInternalServerError : nat := 500.

(** What a handler does with its [http.ResponseWriter]: the calls it makes
    on it, in order. The calls are those of the source, not what the
    library turns them into. *)
Inductive reply : Type :=
  | http_Error (msg : string) (code : nat)
  | Header_Set (key value : string)
  | ResponseWriter_Write (p : list byte)
  | json_Encode (v : list (string * string)).

Section Handlers.

Context {W R : Type} `{WriteCloser W} `{ReadCloser R}.
Context (uuid : nat -> string).

(** The body of a request, and what [json.NewDecoder(r.Body).Decode(&req)]
    makes of it: an error, or the fields of [req], a field the body does
    not give being the empty string. [decodeRun] fills the [SessionID] and
    the [Command] of line 221, [decodeEnd] the [SessionID] of line 267. *)
Context {B : Type}.
Context (decodeRun : B -> error + string * string).
Context (decodeEnd : B -> error + string).

Record Request : Type := mkRequest {
  Method : string;
  Body : B
}.

(** [session.ID] for the session [CreateSession] returned. A nil reference
    has no [ID]; [CreateSession] returns none with a nil error. *)
Definition Session_ID (st : State W R) (session : option ref) : string :=
  match session with
  | Some p =>
      match heap st !! p with
      | Some s => ID s
      | None => ""
      end
  | None => ""
  end.

(** [handleStartSession]. [os] is what the operating system answers when
    [CreateSession] is called. *)
Definition handleStartSession (os : Spawn W R) (r : Request) (st : State W R)
  : State W R * list reply :=
  if negb (String.eqb (Method r) MethodPost) then
    (st, [http_Error "Method not allowed" StatusMethodNotAllowed])
  else
    let '(st', (session, err)) := CreateSession uuid os st in
    match err with
    | Some e =>
        (st', [http_Error ("Failed to create session: " +:+ Error e)
                          StatusInternalServerError])
    | None =>
        (st', [Header_Set "Content-Type" "application/json";
               json_Encode [("session_id", Session_ID st' session)]])
    end.

(** [handleRunCommand]. [None]: [RunCommand] has not returned after
    [fuel] iterations of its loop. *)
Definition handleRunCommand (fuel : nat) (r : Request) (st : State W R)
  : option (State W R * list reply) :=
  if negb (String.eqb (Method r) MethodPost) then
    Some (st, [http_Error "Method not allowed" StatusMethodNotAllowed])
  else
    match decodeRun (Body r) with
    | inl _ => Some (st, [http_Error "Invalid request body" StatusBadRequest])
    | inr (SessionID, Command) =>
        if String.eqb SessionID "" || String.eqb Command "" then
          Some (st, [http_Error "session_id and command are required"
                                StatusBadRequest])
        else
          let '(session, exists_) := GetSession SessionID st in
          if negb exists_ then
            Some (st, [http_Error "Session not found" StatusNotFound])
          else
            match session with
            | None => None
            | Some p =>
                match Session_RunCommand uuid fuel p Command st with
                | None => None
                | Some (st', (output, Some e)) =>
                    Some (st',
                          [http_Error
                             ("Failed to execute command: " +:+ Error e)
                             StatusInternalServerError])
                | Some (st', (output, None)) =>
                    Some (st',
                          [Header_Set "Content-Type"
                                      "text/plain; charset=utf-8";
                           ResponseWriter_Write (list_byte_of_string output)])
                end
            end
    end.

(** [handleEndSession]. *)
Definition handleEndSession (r : Request) (st : State W R)
  : State W R * list reply :=
  if negb (String.eqb (Method r) MethodPost) then
    (st, [http_Error "Method not allowed" StatusMethodNotAllowed])
  else
    match decodeEnd (Body r) with
    | inl _ => (st, [http_Error "Invalid request body" StatusBadRequest])
    | inr SessionID =>
        if String.eqb SessionID "" then
          (st, [http_Error "session_id is required" StatusBadRequest])
        else
          let '(st', err) := EndSession SessionID st in
          match err with
          | Some e =>
              (st', [http_Error ("Failed to end session: " +:+ Error e)
                                StatusInternalServerError])
          | None =>
              (st', [Header_Set "Content-Type" "application/json";
                     json_Encode [("message", "Session ended successfully")]])
          end
    end.

End Handlers.

Arguments Request : clear implicits.

(** * The vocabulary of the properties *)

(** ** Line terminators *)

Definition CRLF : string := String CR (String LF "").

(** [s] ends with [t]. *)
Definition hasSuffix (s t : string) : Prop := exists p, s = p +:+ t.

(** The specification of the trimming: [stripped s r] when [r] is [s]
    without its trailing line terminator, CRLF, LF or CR, and [r] is [s]
    when [s] ends with none. *)
Inductive stripped : string -> string -> Prop :=
  | stripped_CRLF r : stripped (r +:+ CRLF) r
  | stripped_LF r : ~ hasSuffix r (String CR "") ->
      stripped (r +:+ String LF "") r
  | stripped_CR r : stripped (r +:+ String CR "") r
  | stripped_none s : ~ hasSuffix s (String LF "") ->
      ~ hasSuffix s (String CR "") -> stripped s s.

(** ** Occurrences of the marker *)

(** [marker] occurs in [output] at index [i], as a contiguous substring. *)
Definition occursAt (marker output : list byte) (i : nat) : Prop :=
  exists pre post, output = pre ++ marker ++ post /\ length pre = i.

Definition occursIn (marker output : list byte) : Prop :=
  exists i, occursAt marker output i.

(** The scan as the specification words it, to compare with [findMarker]:
    the newly appended region together with an overlap of marker-length-1
    bytes from before the new data. *)
Definition findMarker_overlap (output : list byte) (n : nat) (marker : string)
  : option nat :=
  let m := length (list_byte_of_string marker) in
  if (m <=? length output)%nat then
    let first := length output - n - (m - 1) in
    let last := length output - m in
    scanFrom output marker first (S last - first)
  else None.

Lemma byte_eq_dec : EqDecision byte.
Proof.
  intros x y. destruct (Byte.eqb x y) eqn:E.
  - left. apply Byte.byte_dec_bl. assumption.
  - right. apply Byte.eqb_false. assumption.
Defined.

#[export] Existing Instance byte_eq_dec.

(** Decision procedures for [occursAt] and [occursIn]. *)
Definition occursAtb (marker output : list byte) (i : nat) : bool :=
  (i <=? length output)%nat &&
  bool_decide (firstn (length marker) (skipn i output) = marker).

Fixpoint prefixb (marker output : list byte) : bool :=
  match marker, output with
  | [], _ => true
  | _ :: _, [] => false
  | a :: marker', b :: output' =>
      if Byte.eqb a b then prefixb marker' output' else false
  end.

Fixpoint occursInb (marker output : list byte) : bool :=
  if prefixb marker output then true
  else match output with
       | [] => false
       | _ :: output' => occursInb marker output'
       end.

(** ** Executions of the read loop *)

Section ReadLoopVocabulary.

Context {R : Type} `{ReadCloser R}.

(** The loop after [k] iterations that all went on to the next one: the
    stream and the buffer it has then. *)
Fixpoint iterations (k : nat) (marker : string) (stdout : R)
    (output : list byte) : option (R * list byte) :=
  match k with
  | 0 => Some (stdout, output)
  | S k' =>
      let '(stdout', rd) := Read stdout bufferSize in
      match loopBody marker output rd with
      | Continue output' => iterations k' marker stdout' output'
      | _ => None
      end
  end.

(** The stream as [k] calls of [Read] leave it. *)
Fixpoint afterReads (k : nat) (stdout : R) : R :=
  match k with
  | 0 => stdout
  | S k' => afterReads k' (fst (Read stdout bufferSize))
  end.

(** The stream has ended: every [Read] from now on returns no byte and
    [io.EOF], as the pipe of a process that exited does. *)
Definition ended (stdout : R) : Prop :=
  forall k, snd (Read (afterReads k stdout) bufferSize) = ([], Some io_EOF).

(** [stdout] delivers the chunks one per [Read], none with a failure, and
    is left as [stdout']. *)
Fixpoint delivers (stdout : R) (chunks : list (list byte)) (stdout' : R)
  : Prop :=
  match chunks with
  | [] => stdout = stdout'
  | chunk :: rest =>
      exists err,
        snd (Read stdout bufferSize) = (chunk, err) /\
        isFailure err = false /\
        delivers (fst (Read stdout bufferSize)) rest stdout'
  end.

End ReadLoopVocabulary.

(** ** States of the registry *)

Section RegistryVocabulary.

Context {W R : Type} `{WriteCloser W} `{ReadCloser R}.
Context (uuid : nat -> string).

(** The states the program can be in: from the empty registry, by calls
    of [CreateSession] and [EndSession] and by calls of [RunCommand] that
    return, on any reference. *)
Inductive reachable : State W R -> Prop :=
  | reachable_new : reachable NewSessionManager
  | reachable_CreateSession os st :
      reachable st -> reachable (fst (CreateSession uuid os st))
  | reachable_EndSession sessionID st :
      reachable st -> reachable (fst (EndSession sessionID st))
  | reachable_RunCommand fuel p command st st' res :
      reachable st ->
      Session_RunCommand uuid fuel p command st = Some (st', res) ->
      reachable st'.

(** Every identifier of the registry refers to a running session, and no
    two identifiers refer to the same session. *)
Definition registered_running (st : State W R) : Prop :=
  forall sessionID p,
    sessions st !! sessionID = Some p ->
    exists s, heap st !! p = Some s /\ Running s = true.

Definition registry_injective (st : State W R) : Prop :=
  forall id1 id2 p,
    sessions st !! id1 = Some p -> sessions st !! id2 = Some p -> id1 = id2.

End RegistryVocabulary.

(** ** Goroutines and the mutex *)

Section GoroutineVocabulary.

Context {W R : Type}.

(** Every call is about to lock the mutex, which is free. *)
Definition initial (cfg : Config W R) : Prop :=
  mu (shared cfg) = false /\
  forall i t, threads cfg !! i = Some t -> snd t = AtLock.

(** The goroutine is between [Lock] and [Unlock]. *)
Definition holdsLock (at_ : place) : bool :=
  match at_ with
  | AtCheck | AtWrite | AtRead _ _ | AtTerminate => true
  | AtLock | Returned _ _ => false
  end.

(** The goroutine has a command in flight: [RunCommand] has locked the
    mutex and has not returned. *)
Definition inFlight (t : call * place) : bool :=
  match t with
  | (CallRunCommand _, (AtCheck | AtWrite | AtRead _ _)) => true
  | _ => false
  end.

(** The mutex is free exactly when nobody is between [Lock] and [Unlock],
    and at most one goroutine is. *)
Definition exclusive (cfg : Config W R) : Prop :=
  (mu (shared cfg) = false ->
   forall j t, threads cfg !! j = Some t -> holdsLock (snd t) = false) /\
  (forall i j ti tj,
      threads cfg !! i = Some ti -> threads cfg !! j = Some tj ->
      holdsLock (snd ti) = true -> holdsLock (snd tj) = true -> i = j) /\
  (mu (shared cfg) = true ->
   exists i t, threads cfg !! i = Some t /\ holdsLock (snd t) = true).

End GoroutineVocabulary.

(** ** Operations on the registry *)

Section OperationVocabulary.

Context {W R : Type} `{WriteCloser W} `{ReadCloser R}.
Context (uuid : nat -> string).

(** One operation of the program takes the state [st] to [st']: a call
    of [CreateSession], of [EndSession], or a call of [RunCommand] that
    returns. *)
Inductive operation : State W R -> State W R -> Prop :=
  | operation_CreateSession os st :
      operation st (fst (CreateSession uuid os st))
  | operation_EndSession sessionID st :
      operation st (fst (EndSession sessionID st))
  | operation_RunCommand fuel p command st st' res :
      Session_RunCommand uuid fuel p command st = Some (st', res) ->
      operation st st'.

(** The [ID] of a registered session is its identifier in the registry. *)
Definition registered_by_ID (st : State W R) : Prop :=
  forall sessionID p s,
    sessions st !! sessionID = Some p -> heap st !! p = Some s ->
    ID s = sessionID.

(** A session is running exactly when its process was not killed. *)
Definition running_iff_alive (st : State W R) : Prop :=
  forall p s, heap st !! p = Some s -> (Running s = true <-> Cmd s = Alive).

End OperationVocabulary.

(** ** Replies of the handlers *)

(** The request is turned down: one call of [http.Error] with the status
    of a client error. *)
Definition rejected (replies : list reply) : Prop :=
  exists msg code,
    replies = [http_Error msg code] /\
    (code = StatusMethodNotAllowed \/ code = StatusBadRequest \/
     code = StatusNotFound).

(** The operation failed: one call of [http.Error] with status 500 and the
    message of the error after [prefix]. *)
Definition failed (prefix : string) (e : error) (replies : list reply)
  : Prop :=
  replies = [http_Error (prefix +:+ Error e) StatusInternalServerError].

(** The output of a command, sent as plain text. *)
Definition sentOutput (output : string) (replies : list reply) : Prop :=
  replies = [Header_Set "Content-Type" "text/plain; charset=utf-8";
             ResponseWriter_Write (list_byte_of_string output)].

(** A JSON object with one member. *)
Definition sentJSON (key value : string) (replies : list reply) : Prop :=
  replies = [Header_Set "Content-Type" "application/json";
             json_Encode [(key, value)]].

(** ** Calls and their places *)

Section CallVocabulary.

Context {W R : Type}.

(** The place is one of the call. *)
Definition placed (t : call * place) : bool :=
  match t with
  | (CallRunCommand _, (AtLock | AtCheck | AtWrite | AtRead _ _ | Returned _ _))
  | (CallEndSession, (AtLock | AtTerminate | Returned _ _)) => true
  | _ => false
  end.

Definition hasReturned (at_ : place) : bool :=
  match at_ with
  | Returned _ _ => true
  | _ => false
  end.

(** The goroutine is past the test of line 122, and has not returned. *)
Definition pastCheck (at_ : place) : bool :=
  match at_ with
  | AtWrite | AtRead _ _ => true
  | _ => false
  end.


(** A call of [EndSession] has returned. *)
Definition ended_by (cfg : Config W R) (i : nat) : Prop :=
  exists result err,
    threads cfg !! i = Some (CallEndSession, Returned result err).

(** What the goroutines keep true of a session that is not running: no
    call of [RunCommand] is past its test; and a call of [EndSession]
    returns only from a session that is not running. *)
Definition stopped_inv (cfg : Config W R) : Prop :=
  (Running (session (shared cfg)) = false ->
   forall j t, threads cfg !! j = Some t -> pastCheck (snd t) = false) /\
  ((exists i, ended_by cfg i) -> Running (session (shared cfg)) = false) /\
  (forall j t, threads cfg !! j = Some t -> placed t = true).

End CallVocabulary.

(** * Streams and data of the examples *)

(** A pipe read end that delivers the results of a script, one per [Read]
    (a chunk longer than the buffer is delivered in pieces), and reports
    the end of the stream from then on, as a closed pipe does. *)
Record Script : Type := mkScript {
  pending : list (list byte * option error)
}.

Definition Script_Read (r : Script) (cap : nat)
  : Script * (list byte * option error) :=
  match pending r with
  | [] => (r, ([], Some io_EOF))
  | (chunk, err) :: rest =>
      if (length chunk <=? cap)%nat then (mkScript rest, (chunk, err))
      else (mkScript ((skipn cap chunk, err) :: rest), (firstn cap chunk, None))
  end.

Lemma Script_Read_bound (r : Script) (cap : nat) :
  length (fst (snd (Script_Read r cap))) <= cap.
Proof.
  unfold Script_Read. destruct (pending r) as [|[chunk err] rest]; simpl.
  - lia.
  - destruct (Nat.leb_spec (length chunk) cap); simpl.
    + assumption.
    + rewrite length_firstn. lia.
Qed.

#[export] Instance Script_ReadCloser : ReadCloser Script :=
  {| Read := Script_Read; Read_bound := Script_Read_bound |}.

(** A pipe write end: it keeps what was written, and fails once it is
    closed or once the process at the other end is gone. *)
Record Pipe : Type := mkPipe {
  written : list byte;
  closed : bool;
  broken : bool
}.

Definition Pipe_Write (w : Pipe) (p : list byte)
  : Pipe * (nat * option error) :=
  if closed w then (w, (0, Some (errorString "file already closed")))
  else if broken w then (w, (0, Some (errorString "broken pipe")))
  else (mkPipe (written w ++ p) false false, (length p, None)).

Definition Pipe_Close (w : Pipe) : Pipe * option error :=
  if closed w then (w, Some (errorString "file already closed"))
  else (mkPipe (written w) true (broken w), None).

#[export] Instance Pipe_WriteCloser : WriteCloser Pipe :=
  {| Write := Pipe_Write; Close := Pipe_Close |}.

(** Values that [uuid.New().String()] can return. *)
Definition sessionID1 : string := "5a0c3b64-0f5e-4d0b-8a53-0d9f3f1f2b11".
Definition marker1 : string := "123e4567-e89b-12d3-a456-426614174000".
Definition marker2 : string := "0b9f3c1a-7d42-4e6b-9a10-5c2e8f7d6b4a".

Definition chunk (s : string) : list byte * option error :=
  (list_byte_of_string s, None).

(** A running session whose input pipe is [stdin] and whose output pipe
    will deliver [stdout]. *)
Definition exampleSession (stdin : Pipe)
    (stdout : list (list byte * option error)) : Session Pipe Script :=
  mkSession sessionID1 Alive stdin
            (mkScript stdout) (mkScript []) true.

Definition openPipe : Pipe := mkPipe [] false false.
Definition brokenPipe : Pipe := mkPipe [] false true.

(** The output of [echo hello] followed by the marker, cut by the reads
    after the 14th byte of the marker. *)
Definition splitOutput : list (list byte * option error) :=
  [chunk ("hello" +:+ CRLF +:+ "123e4567-e89b-");
   chunk ("12d3-a456-426614174000" +:+ String LF "")].

(** The same output in one read. *)
Definition wholeOutput : list (list byte * option error) :=
  [chunk ("hello" +:+ CRLF +:+ marker1 +:+ String LF "")].

(** Output that ends without a marker. *)
Definition cutOutput : list (list byte * option error) :=
  [chunk ("hello" +:+ CRLF)].

(** [maxOutput] bytes in reads that fill the buffer, then one more byte. *)
Definition fullChunk : list byte := repeat "x"%byte bufferSize.
Definition bigChunks : list (list byte) := repeat fullChunk 1024.
Definition bigOutput : list (list byte * option error) :=
  map (fun c => (c, None)) bigChunks ++ [chunk "y"].

(** A session that was terminated. *)
Definition stoppedSession : Session Pipe Script :=
  mkSession sessionID1 Killed
            (mkPipe [] true false) (mkScript wholeOutput) (mkScript []) false.

(** A generator whose first three values are [sessionID1], [marker1] and
    [marker2]. *)
Definition exampleUUID (k : nat) : string :=
  nth k [sessionID1; marker1; marker2] "c0ffee00-0000-4000-8000-000000000000".

(** The empty registry; the registry after one [CreateSession]; that one
    after [EndSession] of the session; and the second one after a
    [RunCommand] that returned. *)
Definition state0 : State Pipe Script := NewSessionManager.

Definition state1 : State Pipe Script :=
  fst (CreateSession exampleUUID
         (Started openPipe (mkScript wholeOutput) (mkScript [])) state0).

Definition state2 : State Pipe Script := fst (EndSession sessionID1 state1).

Definition state3 : State Pipe Script :=
  match Session_RunCommand exampleUUID 1 1%positive "echo hello" state1 with
  | Some (st, _) => st
  | None => state1
  end.

(** Two calls of [RunCommand] on one session; the first has locked,
    checked and written, and is in its read loop. *)
Definition twoCalls : Config Pipe Script :=
  mkConfig [(CallRunCommand "echo hello", AtLock);
            (CallRunCommand "dir", AtLock)]
           (mkShared false (exampleSession openPipe wholeOutput) 1).

Definition firstReading : Config Pipe Script :=
  match run exampleUUID [0; 0; 0] twoCalls with
  | Some cfg => cfg
  | None => twoCalls
  end.

(** Bodies of requests, by what the JSON decoder makes of them: text that
    is not JSON, or an object with these two members (a member that is
    absent is the empty string). *)
Inductive ExampleBody : Type :=
  | NotJSON
  | Fields (session_id command : string).

Definition exampleDecodeRun (b : ExampleBody) : error + string * string :=
  match b with
  | NotJSON => inl (errorString "invalid character 'x' looking for beginning of value")
  | Fields session_id command => inr (session_id, command)
  end.

Definition exampleDecodeEnd (b : ExampleBody) : error + string :=
  match b with
  | NotJSON => inl (errorString "invalid character 'x' looking for beginning of value")
  | Fields session_id _ => inr session_id
  end.

Definition getRequest : Request ExampleBody := mkRequest "GET" NotJSON.
Definition startRequest : Request ExampleBody := mkRequest "POST" NotJSON.
Definition runRequest : Request ExampleBody :=
  mkRequest "POST" (Fields sessionID1 "echo hello").
Definition endRequest : Request ExampleBody :=
  mkRequest "POST" (Fields sessionID1 "").

(** A generator that returns the same value twice. *)
Definition collidingUUID (k : nat) : string := sessionID1.

(** A process that could not be started. *)
Definition noPowershell : Spawn Pipe Script :=
  StartFails (errorString "exec: powershell.exe: executable file not found in %PATH%").

(** A read that fails after the marker has arrived. *)
Definition failingOutput : list (list byte * option error) :=
  [chunk "hello";
   (list_byte_of_string marker1, Some (errorString "read |0: file already closed"))].




(** The registry after a first and after a second [CreateSession] with the
    generator that repeats itself. *)
Definition collidedState : State Pipe Script :=
  fst (CreateSession collidingUUID
         (Started openPipe (mkScript wholeOutput) (mkScript [])) state0).

Definition collidedTwice : State Pipe Script :=
  fst (CreateSession collidingUUID
         (Started openPipe (mkScript cutOutput) (mkScript [])) collidedState).

(** [state2] after one more [CreateSession]. *)
Definition state4 : State Pipe Script :=
  fst (CreateSession exampleUUID
         (Started openPipe (mkScript cutOutput) (mkScript [])) state2).

(** The output of two commands: that of the first with its marker; then,
    for the second, the marker of the first as a line of text, and the
    marker of the second. *)
Definition twoOutputs : list (list byte * option error) :=
  [chunk ("hello" +:+ CRLF +:+ marker1 +:+ String LF "");
   chunk (marker1 +:+ CRLF +:+ marker2 +:+ String LF "")].

(** The registry with a session that will deliver [twoOutputs]; the
    session and the registry after a first [RunCommand]. *)
Definition state5 : State Pipe Script :=
  fst (CreateSession exampleUUID
         (Started openPipe (mkScript twoOutputs) (mkScript [])) state0).

Definition afterFirst : Session Pipe Script :=
  mkSession sessionID1 Alive
            (mkPipe (list_byte_of_string (fullCommand "echo hello" marker1))
                    false false)
            (mkScript [chunk (marker1 +:+ CRLF +:+ marker2 +:+ String LF "")])
            (mkScript []) true.

Definition state6 : State Pipe Script :=
  match Session_RunCommand exampleUUID 1 1%positive "echo hello" state5 with
  | Some (st, _) => st
  | None => state5
  end.

(** * Proofs *)

(** ** Strings *)

Lemma append_nil_l (s : string) : "" +:+ s = s.
Proof. reflexivity. Qed.

Lemma append_cons (a : ascii) (s t : string) :
  String a s +:+ t = String a (s +:+ t).
Proof. reflexivity. Qed.

Ltac string_step := rewrite ?append_cons, ?append_nil_l; simpl.

Lemma string_snoc_cases (s : string) :
  s = "" \/ exists s' c, s = s' +:+ String c "".
Proof.
  induction s as [|a s IH].
  - left; reflexivity.
  - right. destruct IH as [->|(s' & c & ->)].
    + exists "", a. reflexivity.
    + exists (String a s'), c. reflexivity.
Qed.

Lemma length_snoc (s : string) (c : ascii) :
  String.length (s +:+ String c "") = S (String.length s).
Proof. induction s as [|a s IH]; string_step; congruence. Qed.

Lemma get_snoc (s : string) (c : ascii) :
  String.get (String.length s) (s +:+ String c "") = Some c.
Proof. induction s as [|a s IH]; string_step; auto. Qed.

Lemma substring_snoc (s : string) (c : ascii) :
  String.substring 0 (String.length s) (s +:+ String c "") = s.
Proof. induction s as [|a s IH]; string_step; congruence. Qed.

Lemma append_assoc (a b c : string) : (a +:+ b) +:+ c = a +:+ (b +:+ c).
Proof. induction a as [|x a IH]; string_step; congruence. Qed.

Lemma snoc_inj (s t : string) (c d : ascii) :
  s +:+ String c "" = t +:+ String d "" -> s = t /\ c = d.
Proof.
  revert t. induction s as [|a s IH]; intros [|b t] E;
    rewrite ?append_cons, ?append_nil_l in E.
  - injection E as ->. auto.
  - injection E as -> E. destruct t; discriminate.
  - injection E as -> E. destruct s; discriminate.
  - injection E as -> E. destruct (IH _ E) as [-> ->]. auto.
Qed.

Lemma hasSuffix_snoc (s : string) (c d : ascii) :
  hasSuffix (s +:+ String c "") (String d "") <-> c = d.
Proof.
  split.
  - intros [p E]. apply snoc_inj in E. tauto.
  - intros ->. exists s. reflexivity.
Qed.

Lemma hasSuffix_empty (d : ascii) : ~ hasSuffix "" (String d "").
Proof. intros [[|a p] E]; [discriminate|]. destruct p; discriminate. Qed.

Lemma endsWith_empty (c : ascii) : endsWith "" c = false.
Proof. reflexivity. Qed.

Lemma endsWith_snoc (s : string) (c x : ascii) :
  endsWith (s +:+ String c "") x = Ascii.eqb c x.
Proof.
  unfold endsWith. rewrite length_snoc. simpl.
  rewrite Nat.sub_0_r, get_snoc. reflexivity.
Qed.

Lemma dropLast_snoc (s : string) (c : ascii) :
  dropLast (s +:+ String c "") = s.
Proof.
  unfold dropLast. rewrite length_snoc. simpl.
  rewrite Nat.sub_0_r. apply substring_snoc.
Qed.

(** [endsWith] decides [hasSuffix] for one character. *)
Lemma endsWith_spec (s : string) (c : ascii) :
  endsWith s c = true <-> hasSuffix s (String c "").
Proof.
  destruct (string_snoc_cases s) as [->|(s' & d & ->)].
  - rewrite endsWith_empty. split; [discriminate|]. intros Hs.
    exfalso. exact (hasSuffix_empty _ Hs).
  - rewrite endsWith_snoc, hasSuffix_snoc. apply Ascii.eqb_eq.
Qed.

Lemma endsWith_false (s : string) (c : ascii) :
  endsWith s c = false <-> ~ hasSuffix s (String c "").
Proof.
  rewrite <- endsWith_spec. destruct (endsWith s c); split; intros; congruence.
Qed.

(** The code meets the specification of the trimming. *)
Lemma trimTerminator_stripped (s : string) : stripped s (trimTerminator s).
Proof.
  unfold trimTerminator.
  destruct (endsWith s LF) eqn:ELF.
  - apply endsWith_spec in ELF. destruct ELF as [r ->].
    rewrite dropLast_snoc.
    destruct (endsWith r CR) eqn:ECR.
    + apply endsWith_spec in ECR. destruct ECR as [r' ->].
      rewrite dropLast_snoc, append_assoc. apply stripped_CRLF.
    + apply stripped_LF. apply endsWith_false. assumption.
  - destruct (endsWith s CR) eqn:ECR.
    + apply endsWith_spec in ECR. destruct ECR as [r ->].
      rewrite dropLast_snoc. apply stripped_CR.
    + apply stripped_none; apply endsWith_false; assumption.
Qed.

(** The specification determines the result. *)
Lemma stripped_functional (s r1 r2 : string) :
  stripped s r1 -> stripped s r2 -> r1 = r2.
Proof.
  assert (HCRLF : forall r, r +:+ CRLF = (r +:+ String CR "") +:+ String LF "").
  { intros r. rewrite append_assoc. reflexivity. }
  assert (Hne : CR <> LF) by discriminate.
  intros H1 H2; inversion H1; subst; inversion H2; subst;
    repeat match goal with
    | E : _ +:+ CRLF = _ |- _ => rewrite HCRLF in E
    | E : _ = _ +:+ CRLF |- _ => rewrite HCRLF in E
    | E : _ +:+ String _ "" = _ +:+ String _ "" |- _ =>
        apply snoc_inj in E; destruct E as [? ?]; subst
    end;
    try reflexivity; try congruence;
    try (exfalso;
         match goal with
         | N : ~ hasSuffix _ _ |- _ => apply N; eexists; reflexivity
         | N : ~ hasSuffix _ _ |- _ =>
             apply N; rewrite HCRLF; eexists; reflexivity
         end).
Qed.

(** ** Finding the marker *)

Lemma string_of_list_byte_eq (b : list byte) (s : string) :
  string_of_list_byte b = s <-> b = list_byte_of_string s.
Proof.
  split; intros E.
  - rewrite <- E. symmetry. apply list_byte_of_string_of_list_byte.
  - rewrite E. apply string_of_list_byte_of_string.
Qed.

Lemma slice_from (b : list byte) (i m : nat) :
  slice b i (i + m) = firstn m (skipn i b).
Proof. unfold slice. f_equal. lia. Qed.

Lemma slice_prefix (b : list byte) (i : nat) : slice b 0 i = firstn i b.
Proof. unfold slice. rewrite Nat.sub_0_r. reflexivity. Qed.

Lemma occursAt_bound (marker output : list byte) (i : nat) :
  occursAt marker output i -> i + length marker <= length output.
Proof.
  intros (pre & post & -> & <-). rewrite !length_app. lia.
Qed.

Lemma occursAt_slice (marker output : list byte) (i : nat) :
  occursAt marker output i <->
  i <= length output /\ firstn (length marker) (skipn i output) = marker.
Proof.
  split.
  - intros Hocc. pose proof (occursAt_bound _ _ _ Hocc) as Hb.
    destruct Hocc as (pre & post & -> & <-). split; [lia|].
    rewrite drop_app_length. apply take_app_length.
  - intros [Hi E]. exists (firstn i output), (skipn (length marker) (skipn i output)).
    split.
    + rewrite <- E at 1. rewrite firstn_skipn, firstn_skipn. reflexivity.
    + apply firstn_length_le. assumption.
Qed.

Lemma markerAt_occursAt (output : list byte) (marker : string) (i : nat) :
  i <= length output ->
  markerAt output marker i = true <->
  occursAt (list_byte_of_string marker) output i.
Proof.
  intros Hi. unfold markerAt.
  rewrite String.eqb_eq, string_of_list_byte_eq, slice_from, occursAt_slice.
  tauto.
Qed.

Lemma scanFrom_Some (output : list byte) (marker : string) (count i j : nat) :
  scanFrom output marker i count = Some j <->
  i <= j < i + count /\ markerAt output marker j = true /\
  forall k, i <= k < j -> markerAt output marker k = false.
Proof.
  revert i. induction count as [|count IH]; intros i; simpl.
  - split; [discriminate|]. intros [Hj _]. lia.
  - destruct (markerAt output marker i) eqn:Ei.
    + split.
      * intros [= <-]. split; [lia|]. split; [assumption|]. intros k Hk. lia.
      * intros (Hj & Ej & Hlt). f_equal.
        destruct (Nat.eq_dec i j) as [|Hne]; [assumption|].
        rewrite (Hlt i) in Ei by lia. discriminate.
    + rewrite IH. split.
      * intros (Hj & Ej & Hlt). split; [lia|]. split; [assumption|].
        intros k Hk. destruct (Nat.eq_dec k i) as [->|]; [assumption|].
        apply Hlt. lia.
      * intros (Hj & Ej & Hlt).
        assert (i <> j) by (intros ->; congruence).
        split; [lia|]. split; [assumption|]. intros k Hk. apply Hlt. lia.
Qed.

Lemma scanFrom_None (output : list byte) (marker : string) (count i : nat) :
  scanFrom output marker i count = None <->
  forall k, i <= k < i + count -> markerAt output marker k = false.
Proof.
  revert i. induction count as [|count IH]; intros i; simpl.
  - split; [|reflexivity]. intros _ k Hk. lia.
  - destruct (markerAt output marker i) eqn:Ei.
    + split; [discriminate|]. intros Hall.
      rewrite (Hall i) in Ei by lia. discriminate.
    + rewrite IH. split; intros Hall k Hk.
      * destruct (Nat.eq_dec k i) as [->|]; [assumption|]. apply Hall. lia.
      * apply Hall. lia.
Qed.

(** What the scan of one read finds: the first occurrence of the marker
    that starts in the [n] bytes just appended. *)
Lemma findMarker_Some (output : list byte) (n : nat) (marker : string)
    (i : nat) :
  findMarker output n marker = Some i <->
  length output - n <= i /\
  occursAt (list_byte_of_string marker) output i /\
  forall k, length output - n <= k < i ->
            ~ occursAt (list_byte_of_string marker) output k.
Proof.
  unfold findMarker.
  set (m := length (list_byte_of_string marker)).
  destruct (Nat.leb_spec m (length output)) as [Hm|Hm].
  - rewrite scanFrom_Some. split.
    + intros (Hi & Ei & Hlt). split; [lia|]. split.
      * apply markerAt_occursAt; [lia|assumption].
      * intros k Hk Hocc. apply markerAt_occursAt in Hocc; [|lia].
        rewrite Hlt in Hocc by lia. discriminate.
    + intros (Hi & Hocc & Hlt).
      pose proof (occursAt_bound _ _ _ Hocc) as Hb. fold m in Hb.
      split; [lia|]. split.
      * apply markerAt_occursAt; [lia|assumption].
      * intros k Hk. destruct (markerAt output marker k) eqn:Ek; [|reflexivity].
        apply markerAt_occursAt in Ek; [|lia]. exfalso. exact (Hlt k Hk Ek).
  - split; [discriminate|]. intros (_ & Hocc & _).
    pose proof (occursAt_bound _ _ _ Hocc) as Hb. fold m in Hb. lia.
Qed.

Lemma findMarker_None (output : list byte) (n : nat) (marker : string) :
  findMarker output n marker = None <->
  forall k, length output - n <= k ->
            ~ occursAt (list_byte_of_string marker) output k.
Proof.
  unfold findMarker.
  set (m := length (list_byte_of_string marker)).
  destruct (Nat.leb_spec m (length output)) as [Hm|Hm].
  - rewrite scanFrom_None. split.
    + intros Hall k Hk Hocc.
      pose proof (occursAt_bound _ _ _ Hocc) as Hb. fold m in Hb.
      apply markerAt_occursAt in Hocc; [|lia].
      rewrite Hall in Hocc by lia. discriminate.
    + intros Hall k Hk.
      destruct (markerAt output marker k) eqn:Ek; [|reflexivity].
      apply markerAt_occursAt in Ek; [|lia]. exfalso. apply (Hall k); [lia|assumption].
  - split; [|reflexivity]. intros _ k _ Hocc.
    pose proof (occursAt_bound _ _ _ Hocc) as Hb. fold m in Hb. lia.
Qed.

(** An occurrence in a buffer is an occurrence in every extension of it. *)
Lemma occursAt_app (marker output more : list byte) (i : nat) :
  occursAt marker output i -> occursAt marker (output ++ more) i.
Proof.
  intros (pre & post & -> & <-). exists pre, (post ++ more).
  rewrite <- !app_assoc. auto.
Qed.

(** An occurrence that ends inside a prefix is an occurrence in it. *)
Lemma occursAt_prefix (marker output more : list byte) (i : nat) :
  occursAt marker (output ++ more) i ->
  i + length marker <= length output ->
  occursAt marker output i.
Proof.
  rewrite !occursAt_slice. intros [Hi E] Hb. split; [lia|].
  rewrite drop_app_le in E by lia.
  rewrite take_app_le in E; [assumption|]. rewrite length_skipn. lia.
Qed.

(** The scan of the specification is enough: when the marker occurs in
    the buffer after a read and did not occur in it before, the scan with
    the overlap finds its first occurrence. *)
Lemma findMarker_overlap_complete (marker : string) (out chunk : list byte)
    (i : nat) :
  ~ occursIn (list_byte_of_string marker) out ->
  occursAt (list_byte_of_string marker) (out ++ chunk) i ->
  (forall j, j < i ->
             ~ occursAt (list_byte_of_string marker) (out ++ chunk) j) ->
  findMarker_overlap (out ++ chunk) (length chunk) marker = Some i.
Proof.
  intros Hno Hocc Hfirst. unfold findMarker_overlap.
  set (m := length (list_byte_of_string marker)).
  pose proof (occursAt_bound _ _ _ Hocc) as Hb. fold m in Hb.
  assert (Hcut : length out < i + m).
  { destruct (Nat.lt_ge_cases (length out) (i + m)) as [|Hle]; [assumption|].
    exfalso. apply Hno. exists i.
    apply (occursAt_prefix _ out chunk); assumption. }
  rewrite length_app in *.
  destruct (Nat.leb_spec m (length out + length chunk)) as [_|Hlt]; [|lia].
  apply scanFrom_Some. split; [lia|]. split.
  - apply markerAt_occursAt; [rewrite length_app; lia|assumption].
  - intros j Hj. destruct (markerAt (out ++ chunk) marker j) eqn:Ej;
      [|reflexivity].
    apply markerAt_occursAt in Ej; [|rewrite length_app; lia].
    exfalso. apply (Hfirst j); [lia|assumption].
Qed.

(** The scan of the code misses every occurrence that starts before the
    new data. *)
Lemma findMarker_misses_split (marker : string) (out chunk : list byte) :
  (forall j, length out <= j ->
             ~ occursAt (list_byte_of_string marker) (out ++ chunk) j) ->
  findMarker (out ++ chunk) (length chunk) marker = None.
Proof.
  intros Hno. apply findMarker_None. intros k Hk. apply Hno.
  rewrite length_app in Hk. lia.
Qed.

Lemma occursAtb_spec (marker output : list byte) (i : nat) :
  occursAtb marker output i = true <-> occursAt marker output i.
Proof.
  unfold occursAtb. rewrite occursAt_slice, andb_true_iff, Nat.leb_le.
  rewrite bool_decide_eq_true. reflexivity.
Qed.

Lemma prefixb_spec (marker output : list byte) :
  prefixb marker output = true <-> exists post, output = marker ++ post.
Proof.
  revert output. induction marker as [|a marker IH]; intros output; simpl.
  - split; [|reflexivity]. intros _. exists output. reflexivity.
  - destruct output as [|b output].
    + split; [discriminate|]. intros [post E]. discriminate.
    + destruct (Byte.eqb a b) eqn:Eab.
      * apply Byte.byte_dec_bl in Eab. subst b. rewrite IH. split.
        -- intros [post ->]. exists post. reflexivity.
        -- intros [post E]. injection E as ->. exists post. reflexivity.
      * split; [discriminate|]. intros [post E]. injection E as -> _.
        rewrite (Byte.byte_dec_lb eq_refl) in Eab. discriminate.
Qed.

Lemma occursInb_spec (marker output : list byte) :
  occursInb marker output = true <-> occursIn marker output.
Proof.
  unfold occursIn, occursAt.
  induction output as [|b output IH]; simpl.
  - destruct (prefixb marker []) eqn:Ep.
    + apply prefixb_spec in Ep. destruct Ep as [post E].
      split; [|reflexivity]. intros _. exists 0, [], post. auto.
    + split; [discriminate|]. intros (i & pre & post & E & _).
      destruct pre; [|discriminate].
      assert (Hp : prefixb marker [] = true)
        by (apply prefixb_spec; exists post; assumption).
      congruence.
  - destruct (prefixb marker (b :: output)) eqn:Ep.
    + apply prefixb_spec in Ep. destruct Ep as [post E].
      split; [|reflexivity]. intros _. exists 0, [], post. auto.
    + rewrite IH. split.
      * intros (i & pre & post & -> & Hi).
        exists (S i), (b :: pre), post. simpl. auto.
      * intros (i & pre & post & E & Hi).
        destruct pre as [|b' pre].
        -- assert (Hp : prefixb marker (b :: output) = true)
             by (apply prefixb_spec; exists post; assumption).
           congruence.
        -- injection E as -> ->. exists (length pre), pre, post. auto.
Qed.

Lemma occursInb_false (marker output : list byte) :
  occursInb marker output = false -> ~ occursIn marker output.
Proof.
  intros E Hocc. apply occursInb_spec in Hocc. congruence.
Qed.

(** ** The read loop *)

Section ReadLoop.

Context {R : Type} `{ReadCloser R}.

Lemma readLoop_S (fuel : nat) (marker : string) (stdout : R)
    (output : list byte) :
  readLoop (S fuel) marker stdout output =
  match loopBody marker output (snd (Read stdout bufferSize)) with
  | Return result err => Some (fst (Read stdout bufferSize), (result, err))
  | Break output' =>
      Some (fst (Read stdout bufferSize), (string_of_list_byte output', None))
  | Continue output' =>
      readLoop fuel marker (fst (Read stdout bufferSize)) output'
  end.
Proof. simpl. destruct (Read stdout bufferSize) as [r rd]. reflexivity. Qed.

(** More fuel does not change a result. *)
Lemma readLoop_mono (fuel fuel' : nat) (marker : string) (stdout : R)
    (output : list byte) (res : R * (string * option error)) :
  readLoop fuel marker stdout output = Some res ->
  fuel <= fuel' ->
  readLoop fuel' marker stdout output = Some res.
Proof.
  revert fuel' stdout output.
  induction fuel as [|fuel IH]; intros fuel' stdout output E Hle.
  - discriminate.
  - destruct fuel' as [|fuel']; [lia|].
    rewrite readLoop_S in *.
    destruct (loopBody marker output (snd (Read stdout bufferSize)));
      try assumption.
    apply IH; [assumption|lia].
Qed.

Lemma readLoop_iterations (k fuel : nat) (marker : string) (stdout : R)
    (output : list byte) (stdout' : R) (output' : list byte) :
  iterations k marker stdout output = Some (stdout', output') ->
  readLoop (k + fuel) marker stdout output =
  readLoop fuel marker stdout' output'.
Proof.
  revert stdout output.
  induction k as [|k IH]; intros stdout output E.
  - injection E as -> ->. reflexivity.
  - change (S k + fuel) with (S (k + fuel)). rewrite readLoop_S.
    simpl in E. destruct (Read stdout bufferSize) as [r rd]. simpl.
    destruct (loopBody marker output rd); try discriminate.
    apply IH. assumption.
Qed.

(** A loop that has returned made some number of iterations that went on,
    and one that returned or broke out. *)
Lemma readLoop_Some (fuel : nat) (marker : string) (stdout : R)
    (output : list byte) (res : R * (string * option error)) :
  readLoop fuel marker stdout output = Some res ->
  exists k stdout' output',
    k < fuel /\
    iterations k marker stdout output = Some (stdout', output') /\
    readLoop 1 marker stdout' output' = Some res.
Proof.
  revert stdout output.
  induction fuel as [|fuel IH]; intros stdout output E; [discriminate|].
  rewrite readLoop_S in E.
  destruct (loopBody marker output (snd (Read stdout bufferSize))) eqn:Eb.
  - exists 0, stdout, output. split; [lia|]. split; [reflexivity|].
    rewrite readLoop_S, Eb. assumption.
  - exists 0, stdout, output. split; [lia|]. split; [reflexivity|].
    rewrite readLoop_S, Eb. assumption.
  - destruct (IH _ _ E) as (k & r' & o' & Hk & Hit & Hlast).
    exists (S k), r', o'. split; [lia|]. split; [|assumption].
    simpl. destruct (Read stdout bufferSize) as [r rd]. simpl in *.
    rewrite Eb. assumption.
Qed.

Lemma ended_next (stdout : R) :
  ended stdout -> ended (fst (Read stdout bufferSize)).
Proof. intros He k. exact (He (S k)). Qed.

(** An iteration whose [Read] reports the end of the stream changes
    nothing and goes on, unless the buffer is already over the bound. *)
Lemma loopBody_EOF (marker : string) (output : list byte) :
  (Z.of_nat (length output) <= maxOutput)%Z ->
  loopBody marker output ([], Some io_EOF) = Continue output.
Proof.
  intros Hle. unfold loopBody. simpl.
  destruct (Z.ltb_spec maxOutput (Z.of_nat (length output))); [lia|reflexivity].
Qed.

(** On a stream that has ended the loop never returns. *)
Lemma readLoop_ended (fuel : nat) (marker : string) (stdout : R)
    (output : list byte) :
  ended stdout ->
  (Z.of_nat (length output) <= maxOutput)%Z ->
  readLoop fuel marker stdout output = None.
Proof.
  revert stdout. induction fuel as [|fuel IH]; intros stdout He Hle.
  - reflexivity.
  - rewrite readLoop_S. pose proof (He 0) as E0. simpl in E0.
    rewrite E0, loopBody_EOF by assumption.
    apply IH; [apply ended_next|]; assumption.
Qed.

(** An iteration that reads a chunk with no failure, finds no marker and
    stays under the bound goes on with the chunk appended. *)
Lemma loopBody_Continue (marker : string) (output chunk : list byte)
    (err : option error) :
  isFailure err = false ->
  ~ occursIn (list_byte_of_string marker) (output ++ chunk) ->
  (Z.of_nat (length (output ++ chunk)) <= maxOutput)%Z ->
  loopBody marker output (chunk, err) = Continue (output ++ chunk).
Proof.
  intros Herr Hno Hle. unfold loopBody. rewrite Herr.
  assert (Eout : (if (0 <? length chunk)%nat then output ++ chunk else output)
                 = output ++ chunk).
  { destruct chunk; simpl; [rewrite app_nil_r|]; reflexivity. }
  rewrite Eout.
  assert (Efind : (if (0 <? length chunk)%nat
                   then findMarker (output ++ chunk) (length chunk) marker
                   else None) = None).
  { destruct (0 <? length chunk)%nat; [|reflexivity].
    apply findMarker_None. intros k _ Hocc. apply Hno. exists k. assumption. }
  rewrite Efind.
  destruct (Z.ltb_spec maxOutput (Z.of_nat (length (output ++ chunk))));
    [lia|reflexivity].
Qed.

Lemma occursIn_app (marker output more : list byte) :
  occursIn marker output -> occursIn marker (output ++ more).
Proof. intros [i Hi]. exists i. apply occursAt_app. assumption. Qed.

(** A stream that ends before the marker appears and before the buffer
    exceeds the bound: the loop goes through all its chunks. *)
Lemma iterations_delivers (marker : string) (chunks : list (list byte))
    (stdout stdout' : R) (output : list byte) :
  delivers stdout chunks stdout' ->
  ~ occursIn (list_byte_of_string marker) (output ++ concat chunks) ->
  (Z.of_nat (length (output ++ concat chunks)) <= maxOutput)%Z ->
  iterations (length chunks) marker stdout output =
  Some (stdout', output ++ concat chunks).
Proof.
  revert stdout output.
  induction chunks as [|chunk rest IH]; intros stdout output Hd Hno Hle.
  - simpl in *. subst. rewrite app_nil_r. reflexivity.
  - simpl in Hd. destruct Hd as (err & Erd & Herr & Hd).
    simpl concat in *. rewrite app_assoc in *.
    simpl. destruct (Read stdout bufferSize) as [r rd]. simpl in *. subst rd.
    rewrite loopBody_Continue.
    + apply IH; assumption.
    + assumption.
    + intros Hocc. apply Hno. apply occursIn_app. assumption.
    + rewrite length_app in Hle. lia.
Qed.

End ReadLoop.

(** ** One iteration of the loop *)

(** The buffer of an iteration is the old buffer with the chunk appended,
    also when the chunk is empty. *)
Lemma loopBody_spec (marker : string) (output chunk : list byte)
    (err : option error) :
  loopBody marker output (chunk, err) =
  if isFailure err then
    Return "" (option_map (Errorf_v "failed to read output: ") err)
  else
    match (if (0 <? length chunk)%nat
           then findMarker (output ++ chunk) (length chunk) marker
           else None) with
    | Some i =>
        Return (trimTerminator
                  (string_of_list_byte (firstn i (output ++ chunk)))) None
    | None =>
        if (maxOutput <? Z.of_nat (length (output ++ chunk)))%Z
        then Break (output ++ chunk)
        else Continue (output ++ chunk)
    end.
Proof.
  unfold loopBody. destruct (isFailure err); [reflexivity|].
  destruct chunk as [|b chunk].
  - simpl. rewrite app_nil_r. reflexivity.
  - change (0 <? length (b :: chunk))%nat with true. cbv iota.
    destruct (findMarker _ _ _); [rewrite slice_prefix|]; reflexivity.
Qed.

(** ** Error kinds *)

Lemma NotRunningError_not_WriteError (e : error) :
  NotRunningError e -> ~ WriteError e.
Proof. intros -> [cause E]. discriminate E. Qed.

Lemma NotRunningError_not_ReadError (e : error) :
  NotRunningError e -> ~ ReadError e.
Proof. intros -> [cause E]. discriminate E. Qed.

Lemma WriteError_not_ReadError (e : error) : WriteError e -> ~ ReadError e.
Proof.
  intros [c1 ->] [c2 E]. discriminate E.
Qed.

Section RunCommandFacts.

Context {W R : Type} `{WriteCloser W} `{ReadCloser R}.

Implicit Types (s : Session W R) (marker command : string).

(** The three ways through [RunCommand]. *)
Lemma RunCommand_not_running fuel marker s command :
  Running s = false ->
  RunCommand fuel marker s command =
  Some (s, ("", Some (errorString "session is not running"))).
Proof. intros E. unfold RunCommand. rewrite E. reflexivity. Qed.

Lemma RunCommand_write_fails fuel marker s command (e : error) :
  Running s = true ->
  snd (snd (Write (Stdin s)
              (list_byte_of_string (fullCommand command marker)))) = Some e ->
  RunCommand fuel marker s command =
  Some (withStdin s
          (fst (Write (Stdin s)
                  (list_byte_of_string (fullCommand command marker)))),
        ("", Some (Errorf_v "failed to write command: " e))).
Proof.
  intros E Ew. unfold RunCommand. rewrite E. simpl.
  destruct (Write _ _) as [w [n err]]. simpl in *. subst err. reflexivity.
Qed.

Lemma RunCommand_reads fuel marker s command :
  Running s = true ->
  snd (snd (Write (Stdin s)
              (list_byte_of_string (fullCommand command marker)))) = None ->
  RunCommand fuel marker s command =
  match readLoop fuel marker (Stdout s) [] with
  | None => None
  | Some (stdout', res) =>
      Some (withStdout
              (withStdin s
                 (fst (Write (Stdin s)
                         (list_byte_of_string (fullCommand command marker)))))
              stdout', res)
  end.
Proof.
  intros E Ew. unfold RunCommand. rewrite E. simpl.
  destruct (Write _ _) as [w [n err]]. simpl in *. subst err. reflexivity.
Qed.

(** An error of the loop is a read error, with an empty result. *)
Lemma readLoop_error fuel marker (stdout stdout' : R) (output : list byte)
    (result : string) (e : error) :
  readLoop fuel marker stdout output = Some (stdout', (result, Some e)) ->
  ReadError e /\ result = "".
Proof.
  revert stdout output. induction fuel as [|fuel IH]; intros stdout output E.
  - discriminate.
  - rewrite readLoop_S in E.
    destruct (snd (Read stdout bufferSize)) as [chunk err].
    rewrite loopBody_spec in E.
    destruct err as [[|msg]|]; simpl isFailure in E; cbv iota in E.
    + destruct (if (0 <? length chunk)%nat then _ else _);
        [discriminate|].
      destruct (_ <? _)%Z; [discriminate|]. eapply IH; eassumption.
    + injection E as _ <- <-. split; [|reflexivity].
      exists (errorString msg). reflexivity.
    + destruct (if (0 <? length chunk)%nat then _ else _);
        [discriminate|].
      destruct (_ <? _)%Z; [discriminate|]. eapply IH; eassumption.
Qed.

(** [RunCommand] never changes the identity, the process or the running
    flag of the session. *)
Lemma RunCommand_preserves fuel marker s command s' res :
  RunCommand fuel marker s command = Some (s', res) ->
  ID s' = ID s /\ Cmd s' = Cmd s /\ Running s' = Running s /\
  Stderr s' = Stderr s.
Proof.
  unfold RunCommand. destruct (negb (Running s)).
  - intros [= <- _]. auto.
  - destruct (Write _ _) as [w [n [e|]]].
    + intros [= <- _]. auto.
    + destruct (readLoop _ _ _ _) as [[r res']|]; [|discriminate].
      intros [= <- _]. auto.
Qed.

(** Every error of [RunCommand] is of one of three kinds, and the kind
    tells which way the call went. *)
Lemma RunCommand_error fuel marker s command s' result (e : error) :
  RunCommand fuel marker s command = Some (s', (result, Some e)) ->
  (Running s = false /\ NotRunningError e /\ s' = s) \/
  (Running s = true /\ (WriteError e \/ ReadError e)).
Proof.
  intros H1. destruct (Running s) eqn:Erun.
  - right. split; [reflexivity|].
    destruct (snd (snd (Write (Stdin s)
               (list_byte_of_string (fullCommand command marker))))) as [we|]
      eqn:Ew.
    + rewrite (RunCommand_write_fails _ _ _ _ we Erun Ew) in H1.
      injection H1 as _ _ <-. left. exists we. reflexivity.
    + rewrite (RunCommand_reads _ _ _ _ Erun Ew) in H1.
      destruct (readLoop _ _ _ _) as [[r res]|] eqn:El; [|discriminate].
      injection H1 as _ ->. right.
      eapply readLoop_error. eassumption.
  - left. rewrite RunCommand_not_running in H1 by assumption.
    injection H1 as <- _ <-. repeat split.
Qed.

End RunCommandFacts.

(** ** Streams of the examples *)

Lemma Script_afterReads_empty (k : nat) :
  afterReads k (mkScript []) = mkScript [].
Proof. induction k as [|k IH]; simpl; [reflexivity|assumption]. Qed.

(** A script that is used up has ended. *)
Lemma Script_ended : ended (mkScript []).
Proof. intros k. rewrite Script_afterReads_empty. reflexivity. Qed.

(** A script of chunks that fit the buffer delivers them one per [Read]. *)
Lemma Script_delivers (chunks : list (list byte))
    (rest : list (list byte * option error)) :
  Forall (fun c => length c <= bufferSize) chunks ->
  delivers (mkScript (map (fun c => (c, None)) chunks ++ rest)) chunks
           (mkScript rest).
Proof.
  induction 1 as [|c chunks Hc _ IH]; simpl.
  - reflexivity.
  - exists None. unfold Script_Read. simpl.
    destruct (Nat.leb_spec (length c) bufferSize) as [_|Hlt]; [|lia].
    simpl. auto.
Qed.

Section LoopExits.

Context {R : Type} `{ReadCloser R}.

(** The loop never returns when it has gone through the stream to its end
    with the buffer under the bound. *)
Lemma readLoop_never (k : nat) (marker : string) (stdout stdout' : R)
    (output output' : list byte) :
  iterations k marker stdout output = Some (stdout', output') ->
  ended stdout' ->
  (Z.of_nat (length output') <= maxOutput)%Z ->
  forall fuel, readLoop fuel marker stdout output = None.
Proof.
  intros Hit He Hle fuel.
  destruct (readLoop fuel marker stdout output) as [res|] eqn:E;
    [|reflexivity].
  apply readLoop_mono with (fuel' := k + fuel) in E; [|lia].
  rewrite (readLoop_iterations _ _ _ _ _ _ _ Hit) in E.
  rewrite readLoop_ended in E by assumption. discriminate.
Qed.

(** The iteration that breaks out of the loop: no failure, no marker in
    what was read, and a buffer over the bound. *)
Lemma readLoop_break (k fuel : nat) (marker : string) (stdout r : R)
    (output out chunk : list byte) (err : option error) :
  iterations k marker stdout output = Some (r, out) ->
  snd (Read r bufferSize) = (chunk, err) ->
  isFailure err = false ->
  (0 < length chunk ->
   findMarker (out ++ chunk) (length chunk) marker = None) ->
  (maxOutput < Z.of_nat (length (out ++ chunk)))%Z ->
  readLoop (k + S fuel) marker stdout output =
  Some (fst (Read r bufferSize), (string_of_list_byte (out ++ chunk), None)).
Proof.
  intros Hit Erd Herr Hscan Hover.
  rewrite (readLoop_iterations _ _ _ _ _ _ _ Hit), readLoop_S, Erd.
  rewrite loopBody_spec, Herr.
  destruct (Nat.ltb_spec 0 (length chunk)) as [Hn|Hn].
  - rewrite (Hscan Hn).
    destruct (Z.ltb_spec maxOutput (Z.of_nat (length (out ++ chunk))));
      [reflexivity|lia].
  - destruct (Z.ltb_spec maxOutput (Z.of_nat (length (out ++ chunk))));
      [reflexivity|lia].
Qed.

(** The iteration that finds the marker. *)
Lemma readLoop_found (k fuel : nat) (marker : string) (stdout r : R)
    (output out chunk : list byte) (err : option error) (i : nat) :
  iterations k marker stdout output = Some (r, out) ->
  snd (Read r bufferSize) = (chunk, err) ->
  isFailure err = false ->
  0 < length chunk ->
  findMarker (out ++ chunk) (length chunk) marker = Some i ->
  readLoop (k + S fuel) marker stdout output =
  Some (fst (Read r bufferSize),
        (trimTerminator (string_of_list_byte (firstn i (out ++ chunk))),
         None)).
Proof.
  intros Hit Erd Herr Hn Hscan.
  rewrite (readLoop_iterations _ _ _ _ _ _ _ Hit), readLoop_S, Erd.
  rewrite loopBody_spec, Herr.
  destruct (Nat.ltb_spec 0 (length chunk)) as [_|Hn']; [|lia].
  rewrite Hscan. reflexivity.
Qed.

(** When the first occurrence of the marker lies whole in the chunk of one
    read, that read finds it. *)
Lemma findMarker_unsplit (marker : string) (out chunk : list byte) (i : nat) :
  occursAt (list_byte_of_string marker) (out ++ chunk) i ->
  length out <= i ->
  (forall j, j < i -> ~ occursAt (list_byte_of_string marker) (out ++ chunk) j) ->
  findMarker (out ++ chunk) (length chunk) marker = Some i.
Proof.
  intros Hocc Hi Hfirst. apply findMarker_Some.
  rewrite length_app. split; [lia|]. split; [assumption|].
  intros j Hj. apply Hfirst. lia.
Qed.

(** A result of the loop comes from the marker or from the bound. *)
Lemma readLoop_result (fuel : nat) (marker : string) (stdout stdout' : R)
    (output : list byte) (result : string) :
  readLoop fuel marker stdout output = Some (stdout', (result, None)) ->
  exists k r out,
    iterations k marker stdout output = Some (r, out) /\
    stdout' = fst (Read r bufferSize) /\
    let buffer := out ++ fst (snd (Read r bufferSize)) in
    (exists i,
        occursAt (list_byte_of_string marker) buffer i /\
        result = trimTerminator (string_of_list_byte (firstn i buffer))) \/
    ((maxOutput < Z.of_nat (length buffer))%Z /\
     result = string_of_list_byte buffer).
Proof.
  intros E. apply readLoop_Some in E.
  destruct E as (k & r & out & _ & Hit & E1).
  exists k, r, out. split; [assumption|].
  rewrite readLoop_S in E1.
  destruct (snd (Read r bufferSize)) as [chunk err]. simpl.
  rewrite loopBody_spec in E1.
  destruct (isFailure err) eqn:Herr.
  - destruct err as [[|msg]|]; discriminate.
  - destruct (if (0 <? length chunk)%nat then _ else _) as [i|] eqn:Escan.
    + injection E1 as <- <-. split; [reflexivity|]. left. exists i.
      split; [|reflexivity].
      destruct (0 <? length chunk)%nat; [|discriminate].
      apply findMarker_Some in Escan. tauto.
    + destruct (Z.ltb_spec maxOutput (Z.of_nat (length (out ++ chunk)))).
      * injection E1 as <- <-. split; [reflexivity|]. right. auto.
      * simpl in E1. discriminate.
Qed.

End LoopExits.

(** ** The framing protocol *)

(** C1, where the code departs from the claim. The output of [echo hello]
    followed by the marker holds the marker at index 7. Delivered in one
    read, the call returns ["hello"]. Delivered in two reads that cut the
    marker, the scan of the second read, of 23 bytes, starts at the first
    byte of that read and finds nothing, where the scan with the overlap
    finds index 7; and the call never returns, whatever the number of
    iterations. *)
Theorem RunCommand_misses_split_marker :
  concat (map fst splitOutput) = concat (map fst wholeOutput) /\
  occursAt (list_byte_of_string marker1) (concat (map fst splitOutput)) 7 /\
  option_map snd
    (RunCommand 1 marker1 (exampleSession openPipe wholeOutput) "echo hello")
  = Some ("hello", None) /\
  findMarker_overlap (concat (map fst splitOutput)) 23 marker1 = Some 7 /\
  findMarker (concat (map fst splitOutput)) 23 marker1 = None /\
  forall fuel,
    RunCommand fuel marker1 (exampleSession openPipe splitOutput) "echo hello"
    = None.
Proof.
  split; [reflexivity|]. split.
  { apply occursAtb_spec. vm_compute. reflexivity. }
  split; [vm_compute; reflexivity|].
  split; [vm_compute; reflexivity|].
  split; [vm_compute; reflexivity|].
  intros fuel. rewrite RunCommand_reads by reflexivity.
  rewrite (readLoop_never 2 marker1 (mkScript splitOutput) (mkScript [])
             [] (concat (map fst splitOutput))).
  - reflexivity.
  - vm_compute. reflexivity.
  - apply Script_ended.
  - vm_compute. discriminate.
Qed.

(** What the code does find: when the first occurrence of the marker
    starts in the chunk of a read, so that no read cuts it, the call
    returns the bytes before it, trimmed. *)
Lemma RunCommand_finds_unsplit_marker
    {W R : Type} `{WriteCloser W} `{ReadCloser R}
    (marker command : string) (s : Session W R) (k fuel : nat) (r : R)
    (out chunk : list byte) (err : option error) (i : nat) :
  Running s = true ->
  snd (snd (Write (Stdin s)
              (list_byte_of_string (fullCommand command marker)))) = None ->
  iterations k marker (Stdout s) [] = Some (r, out) ->
  snd (Read r bufferSize) = (chunk, err) ->
  isFailure err = false ->
  0 < length chunk ->
  occursAt (list_byte_of_string marker) (out ++ chunk) i ->
  length out <= i ->
  (forall j, j < i ->
             ~ occursAt (list_byte_of_string marker) (out ++ chunk) j) ->
  option_map snd (RunCommand (k + S fuel) marker s command) =
  Some (trimTerminator (string_of_list_byte (firstn i (out ++ chunk))), None).
Proof.
  intros Erun Ew Hit Erd Herr Hn Hocc Hi Hfirst.
  rewrite (RunCommand_reads _ _ _ _ Erun Ew).
  rewrite (readLoop_found k fuel marker (Stdout s) r [] out chunk err i);
    auto.
  apply findMarker_unsplit; assumption.
Qed.

(** C3. [RunCommand] returns a result only when the marker is found in the
    accumulated buffer or the buffer exceeds [maxOutput]; an iteration
    whose [Read] returns no byte and [io.EOF] leaves the loop where it was;
    and on a stream that ends before the marker appears and before the
    buffer exceeds [maxOutput], the call never returns, whatever the number
    of iterations. *)
Theorem RunCommand_ignores_EOF {W R : Type} `{WriteCloser W} `{ReadCloser R}
    (marker command : string) (s : Session W R) :
  (forall fuel s' result,
      RunCommand fuel marker s command = Some (s', (result, None)) ->
      exists k r out,
        iterations k marker (Stdout s) [] = Some (r, out) /\
        let buffer := out ++ fst (snd (Read r bufferSize)) in
        (exists i,
            occursAt (list_byte_of_string marker) buffer i /\
            result = trimTerminator (string_of_list_byte (firstn i buffer))) \/
        ((maxOutput < Z.of_nat (length buffer))%Z /\
         result = string_of_list_byte buffer)) /\
  (forall fuel stdout output,
      snd (Read stdout bufferSize) = ([], Some io_EOF) ->
      (Z.of_nat (length output) <= maxOutput)%Z ->
      readLoop (S fuel) marker stdout output =
      readLoop fuel marker (fst (Read stdout bufferSize)) output) /\
  (forall chunks stdout',
      Running s = true ->
      snd (snd (Write (Stdin s)
                  (list_byte_of_string (fullCommand command marker)))) = None ->
      delivers (Stdout s) chunks stdout' ->
      ended stdout' ->
      ~ occursIn (list_byte_of_string marker) (concat chunks) ->
      (Z.of_nat (length (concat chunks)) <= maxOutput)%Z ->
      forall fuel, RunCommand fuel marker s command = None).
Proof.
  split; [|split].
  - intros fuel s' result E.
    destruct (Running s) eqn:Erun.
    + destruct (snd (snd (Write (Stdin s)
                 (list_byte_of_string (fullCommand command marker)))))
        as [we|] eqn:Ew.
      * rewrite (RunCommand_write_fails _ _ _ _ we Erun Ew) in E.
        discriminate.
      * rewrite (RunCommand_reads _ _ _ _ Erun Ew) in E.
        destruct (readLoop _ _ _ _) as [[r' [res err]]|] eqn:El;
          [|discriminate].
        injection E as _ -> ->.
        apply readLoop_result in El.
        destruct El as (k & r & out & Hit & _ & Hres).
        exists k, r, out. split; assumption.
    + rewrite RunCommand_not_running in E by assumption. discriminate.
  - intros fuel stdout output Erd Hle.
    rewrite readLoop_S, Erd, loopBody_EOF by assumption. reflexivity.
  - intros chunks stdout' Erun Ew Hd He Hno Hle fuel.
    rewrite (RunCommand_reads _ _ _ _ Erun Ew).
    rewrite (readLoop_never (length chunks) marker (Stdout s) stdout'
               [] ([] ++ concat chunks)); try assumption.
    + reflexivity.
    + apply iterations_delivers; assumption.
Qed.

Lemma RunCommand_ignores_EOF_witness :
  RunCommand 1000 marker1 (exampleSession openPipe cutOutput) "echo hello"
  = None.
Proof.
  refine (proj2 (proj2 (RunCommand_ignores_EOF marker1 "echo hello"
                          (exampleSession openPipe cutOutput)))
            [list_byte_of_string ("hello" +:+ CRLF)] (mkScript [])
            _ _ _ _ _ _ 1000).
  - reflexivity.
  - reflexivity.
  - simpl. exists None. repeat split.
  - apply Script_ended.
  - apply occursInb_false. vm_compute. reflexivity.
  - vm_compute. discriminate.
Defined.

(** C2. When, before the marker is found, a read makes the accumulated
    buffer exceed [maxOutput], [RunCommand] makes no further read and
    returns the whole buffer with a nil error. *)
Theorem RunCommand_size_ceiling {W R : Type} `{WriteCloser W} `{ReadCloser R}
    (marker command : string) (s : Session W R) (k fuel : nat) (r : R)
    (out chunk : list byte) (err : option error) :
  Running s = true ->
  snd (snd (Write (Stdin s)
              (list_byte_of_string (fullCommand command marker)))) = None ->
  iterations k marker (Stdout s) [] = Some (r, out) ->
  snd (Read r bufferSize) = (chunk, err) ->
  isFailure err = false ->
  (0 < length chunk ->
   findMarker (out ++ chunk) (length chunk) marker = None) ->
  (maxOutput < Z.of_nat (length (out ++ chunk)))%Z ->
  RunCommand (k + S fuel) marker s command =
  Some (withStdout
          (withStdin s
             (fst (Write (Stdin s)
                     (list_byte_of_string (fullCommand command marker)))))
          (fst (Read r bufferSize)),
        (string_of_list_byte (out ++ chunk), None)).
Proof.
  intros Erun Ew Hit Erd Herr Hscan Hover.
  rewrite (RunCommand_reads _ _ _ _ Erun Ew).
  rewrite (readLoop_break k fuel marker (Stdout s) r [] out chunk err);
    auto.
Qed.

Lemma RunCommand_size_ceiling_witness :
  RunCommand 1025 marker1 (exampleSession openPipe bigOutput) "yes" =
  Some (withStdout
          (withStdin (exampleSession openPipe bigOutput)
             (fst (Write openPipe
                     (list_byte_of_string (fullCommand "yes" marker1)))))
          (mkScript []),
        (string_of_list_byte (([] ++ concat bigChunks) ++ ["y"%byte]), None)).
Proof.
  refine (RunCommand_size_ceiling marker1 "yes"
            (exampleSession openPipe bigOutput) 1024 0
            (mkScript [chunk "y"]) ([] ++ concat bigChunks) ["y"%byte] None
            _ _ _ _ _ _ _).
  - reflexivity.
  - reflexivity.
  - apply (iterations_delivers marker1 bigChunks (mkScript bigOutput)).
    + apply Script_delivers. apply Forall_forall. intros c Hc.
      apply list_elem_of_In, repeat_spec in Hc. subst c. vm_compute. lia.
    + apply occursInb_false. vm_compute. reflexivity.
    + vm_compute. discriminate.
  - reflexivity.
  - reflexivity.
  - intros _. vm_compute. reflexivity.
  - vm_compute. reflexivity.
Defined.

(** C5. When the marker is found, the result is the bytes that precede
    it with one trailing line terminator stripped: CRLF, LF or CR when
    they end with one, and nothing when they end with none. *)
Theorem RunCommand_strips_one_terminator
    {W R : Type} `{WriteCloser W} `{ReadCloser R}
    (marker command : string) (s : Session W R) (k fuel : nat) (r : R)
    (out chunk : list byte) (err : option error) (i : nat) :
  Running s = true ->
  snd (snd (Write (Stdin s)
              (list_byte_of_string (fullCommand command marker)))) = None ->
  iterations k marker (Stdout s) [] = Some (r, out) ->
  snd (Read r bufferSize) = (chunk, err) ->
  isFailure err = false ->
  0 < length chunk ->
  findMarker (out ++ chunk) (length chunk) marker = Some i ->
  exists s' result,
    RunCommand (k + S fuel) marker s command = Some (s', (result, None)) /\
    occursAt (list_byte_of_string marker) (out ++ chunk) i /\
    stripped (string_of_list_byte (firstn i (out ++ chunk))) result.
Proof.
  intros Erun Ew Hit Erd Herr Hn Hscan.
  rewrite (RunCommand_reads _ _ _ _ Erun Ew).
  rewrite (readLoop_found k fuel marker (Stdout s) r [] out chunk err i);
    auto.
  eexists _, _. split; [reflexivity|]. split.
  - apply findMarker_Some in Hscan. tauto.
  - apply trimTerminator_stripped.
Qed.

Lemma RunCommand_strips_one_terminator_witness :
  exists s' result,
    RunCommand 1 marker1 (exampleSession openPipe wholeOutput) "echo hello"
    = Some (s', (result, None)) /\
    occursAt (list_byte_of_string marker1)
      ([] ++ list_byte_of_string
               ("hello" +:+ CRLF +:+ marker1 +:+ String LF "")) 7 /\
    stripped
      (string_of_list_byte
         (firstn 7
            ([] ++ list_byte_of_string
                     ("hello" +:+ CRLF +:+ marker1 +:+ String LF ""))))
      result.
Proof.
  refine (RunCommand_strips_one_terminator marker1 "echo hello"
            (exampleSession openPipe wholeOutput) 0 0 (mkScript wholeOutput)
            [] (list_byte_of_string
                  ("hello" +:+ CRLF +:+ marker1 +:+ String LF ""))
            None 7 _ _ _ _ _ _ _).
  - reflexivity.
  - reflexivity.
  - reflexivity.
  - reflexivity.
  - reflexivity.
  - vm_compute. lia.
  - vm_compute. reflexivity.
Defined.

(** C6. [RunCommand] fails with the not-running error exactly when the
    running flag is false at entry, and then it returns at once, with the
    session as it was: nothing was written to [Stdin], nothing was read
    from [Stdout]. *)
Theorem RunCommand_NotRunningError_iff
    {W R : Type} `{WriteCloser W} `{ReadCloser R}
    (fuel : nat) (marker command : string) (s : Session W R) :
  ((exists s' result e,
       RunCommand fuel marker s command = Some (s', (result, Some e)) /\
       NotRunningError e)
   <-> Running s = false) /\
  (Running s = false ->
   exists e,
     NotRunningError e /\
     RunCommand 0 marker s command = Some (s, ("", Some e)) /\
     RunCommand fuel marker s command = Some (s, ("", Some e))).
Proof.
  split; [split|].
  - intros (s' & result & e & E & He).
    apply RunCommand_error in E. destruct E as [(Erun & _)|(_ & [Hw|Hr])].
    + assumption.
    + exfalso. exact (NotRunningError_not_WriteError _ He Hw).
    + exfalso. exact (NotRunningError_not_ReadError _ He Hr).
  - intros Erun. eexists _, _, _. split.
    + apply RunCommand_not_running. assumption.
    + reflexivity.
  - intros Erun. eexists. split; [reflexivity|].
    split; apply RunCommand_not_running; assumption.
Qed.

Lemma RunCommand_NotRunningError_iff_witness :
  exists e,
    NotRunningError e /\
    RunCommand 0 marker1 stoppedSession "echo hello"
    = Some (stoppedSession, ("", Some e)) /\
    RunCommand 7 marker1 stoppedSession "echo hello"
    = Some (stoppedSession, ("", Some e)).
Proof.
  apply (proj2 (RunCommand_NotRunningError_iff 7 marker1 "echo hello"
                  stoppedSession)).
  reflexivity.
Defined.

(** C4, as the claim states it, fails: a call that fails on its write, or
    on its read, leaves the running flag true, and the next call on the
    session is not refused: it writes again. *)
Lemma RunCommand_failure_leaves_running :
  RunCommand 1 marker1 (exampleSession brokenPipe wholeOutput) "dir"
  = Some (exampleSession brokenPipe wholeOutput,
          ("", Some (errorString "failed to write command: broken pipe"))) /\
  WriteError (errorString "failed to write command: broken pipe") /\
  Running (exampleSession brokenPipe wholeOutput) = true /\
  RunCommand 1 marker2 (exampleSession brokenPipe wholeOutput) "dir"
  = Some (exampleSession brokenPipe wholeOutput,
          ("", Some (errorString "failed to write command: broken pipe"))) /\
  ~ NotRunningError (errorString "failed to write command: broken pipe") /\
  option_map (fun r => (Running (fst r), snd r))
    (RunCommand 1 marker1
       (exampleSession openPipe [([], Some (errorString "file already closed"))])
       "dir")
  = Some (true,
          ("", Some (errorString "failed to read output: file already closed"))) /\
  ReadError (errorString "failed to read output: file already closed").
Proof.
  split; [reflexivity|]. split; [exists (errorString "broken pipe"); reflexivity|].
  split; [reflexivity|]. split; [reflexivity|]. split; [discriminate|].
  split; [reflexivity|]. exists (errorString "file already closed"). reflexivity.
Qed.

(** C4, amended. A call that fails with a write error or a read error
    leaves the running flag as it was, true; no later call on the session
    fails with the not-running error because of it. *)
Theorem RunCommand_failure_keeps_running
    {W R : Type} `{WriteCloser W} `{ReadCloser R}
    (fuel : nat) (marker command : string) (s s' : Session W R)
    (result : string) (e : error) :
  RunCommand fuel marker s command = Some (s', (result, Some e)) ->
  WriteError e \/ ReadError e ->
  Running s = true /\ Running s' = true /\
  forall fuel' marker' command' s'' result' e',
    RunCommand fuel' marker' s' command' = Some (s'', (result', Some e')) ->
    ~ NotRunningError e'.
Proof.
  intros E Hkind.
  pose proof (RunCommand_preserves _ _ _ _ _ _ E) as (_ & _ & Hrun & _).
  apply RunCommand_error in E.
  destruct E as [(_ & He & _)|(Erun & _)].
  - exfalso. destruct Hkind as [Hw|Hr].
    + exact (NotRunningError_not_WriteError _ He Hw).
    + exact (NotRunningError_not_ReadError _ He Hr).
  - split; [assumption|]. split; [congruence|].
    intros fuel' marker' command' s'' result' e' E' He'.
    apply RunCommand_error in E'.
    destruct E' as [(Erun' & _)|(_ & [Hw|Hr])].
    + congruence.
    + exact (NotRunningError_not_WriteError _ He' Hw).
    + exact (NotRunningError_not_ReadError _ He' Hr).
Qed.

Lemma RunCommand_failure_keeps_running_witness :
  Running (exampleSession brokenPipe wholeOutput) = true /\
  Running (exampleSession brokenPipe wholeOutput) = true /\
  forall fuel' marker' command' s'' result' e',
    RunCommand fuel' marker' (exampleSession brokenPipe wholeOutput) command'
    = Some (s'', (result', Some e')) ->
    ~ NotRunningError e'.
Proof.
  refine (RunCommand_failure_keeps_running 1 marker1 "dir"
            (exampleSession brokenPipe wholeOutput)
            (exampleSession brokenPipe wholeOutput) ""
            (errorString "failed to write command: broken pipe") _ _).
  - reflexivity.
  - left. exists (errorString "broken pipe"). reflexivity.
Defined.

(** ** Markers *)

Lemma length_list_byte_of_string (s : string) :
  length (list_byte_of_string s) = String.length s.
Proof.
  unfold list_byte_of_string. rewrite length_map.
  induction s as [|a s IH]; simpl; [reflexivity|]. rewrite IH. reflexivity.
Qed.

Lemma list_byte_of_string_inj (a b : string) :
  list_byte_of_string a = list_byte_of_string b -> a = b.
Proof.
  intros E. rewrite <- (string_of_list_byte_of_string a),
              <- (string_of_list_byte_of_string b), E.
  reflexivity.
Qed.

(** Two strings of one length that occur at the same index are the same. *)
Lemma occursAt_same_index (m1 m2 buffer : list byte) (i : nat) :
  occursAt m1 buffer i -> occursAt m2 buffer i -> length m1 = length m2 ->
  m1 = m2.
Proof.
  rewrite !occursAt_slice. intros [_ E1] [_ E2] Hlen.
  rewrite <- E1, <- E2, Hlen. reflexivity.
Qed.

Lemma append_inv_tail (a b t : string) :
  String.length a = String.length b -> a +:+ t = b +:+ t -> a = b.
Proof.
  revert b. induction a as [|x a IH]; intros [|y b] Hlen E;
    try discriminate Hlen.
  - reflexivity.
  - rewrite !append_cons in E. injection E as -> E.
    f_equal. apply IH; [|assumption]. simpl in Hlen. lia.
Qed.

(** The wrapped command tells the marker. *)
Lemma fullCommand_marker_inj (command m1 m2 : string) :
  String.length m1 = String.length m2 ->
  fullCommand command m1 = fullCommand command m2 -> m1 = m2.
Proof.
  intros Hlen E. unfold fullCommand in E.
  apply String.app_inj in E. apply String.app_inj in E.
  apply String.app_inj in E.
  exact (append_inv_tail _ _ _ Hlen E).
Qed.

(** ** The registry *)

Section Registry.

Context {W R : Type} `{WriteCloser W} `{ReadCloser R}.
Context (uuid : nat -> string).

Lemma CreateSession_invariant os (st : State W R) :
  registered_running st -> registry_injective st ->
  registered_running (fst (CreateSession uuid os st)) /\
  registry_injective (fst (CreateSession uuid os st)).
Proof.
  intros Hrun Hinj. destruct os; simpl; try (split; assumption).
  remember (fresh (dom (heap st))) as p eqn:Efresh.
  assert (Hp : heap st !! p = None).
  { apply not_elem_of_dom. rewrite Efresh. apply is_fresh. }
  clear Efresh.
  assert (Hold : forall sessionID q,
             sessions st !! sessionID = Some q -> q <> p).
  { intros sessionID q Hq ->. destruct (Hrun _ _ Hq) as (s & Hs & _).
    congruence. }
  split.
  - intros sessionID q Hq. simpl in *.
    apply lookup_insert_Some in Hq. destruct Hq as [[<- <-]|[Hne Hq]].
    + eexists. rewrite lookup_insert_eq. split; reflexivity.
    + destruct (Hrun _ _ Hq) as (s & Hs & Hs').
      exists s. rewrite lookup_insert_ne; [auto|].
      intros E. exact (Hold _ _ Hq (eq_sym E)).
  - intros id1 id2 q H1' H2'. simpl in *.
    apply lookup_insert_Some in H1'. apply lookup_insert_Some in H2'.
    destruct H1' as [[<- <-]|[Hne1 Hq1]]; destruct H2' as [[<- E2]|[Hne2 Hq2]].
    + reflexivity.
    + exfalso. exact (Hold _ _ Hq2 eq_refl).
    + exfalso. exact (Hold _ _ Hq1 (eq_sym E2)).
    + exact (Hinj _ _ _ Hq1 Hq2).
Qed.

Lemma EndSession_invariant sessionID (st : State W R) :
  registered_running st -> registry_injective st ->
  registered_running (fst (EndSession sessionID st)) /\
  registry_injective (fst (EndSession sessionID st)).
Proof.
  intros Hrun Hinj. unfold EndSession.
  destruct (sessions st !! sessionID) as [p|] eqn:Ep; simpl;
    [|split; assumption].
  split.
  - intros id' q Hq. simpl in *.
    apply lookup_delete_Some in Hq. destruct Hq as [Hne Hq].
    destruct (Hrun _ _ Hq) as (s & Hs & Hs').
    exists s. split; [|assumption].
    rewrite lookup_alter_ne; [assumption|].
    intros ->. apply Hne. exact (Hinj _ _ _ Ep Hq).
  - intros id1 id2 q H1' H2'. simpl in *.
    apply lookup_delete_Some in H1'. apply lookup_delete_Some in H2'.
    destruct H1' as [_ H1']. destruct H2' as [_ H2'].
    exact (Hinj _ _ _ H1' H2').
Qed.

Lemma Session_RunCommand_invariant fuel p command (st st' : State W R) res :
  Session_RunCommand uuid fuel p command st = Some (st', res) ->
  registered_running st -> registry_injective st ->
  registered_running st' /\ registry_injective st'.
Proof.
  unfold Session_RunCommand. intros E Hrun Hinj.
  destruct (heap st !! p) as [s|] eqn:Ep; [|discriminate].
  destruct (RunCommand fuel (uuid (drawn st)) s command) as [[s' r]|] eqn:Er;
    [|discriminate].
  injection E as <- <-.
  apply RunCommand_preserves in Er. destruct Er as (_ & _ & Hsame & _).
  split.
  - intros sessionID q Hq. simpl in *.
    destruct (Hrun _ _ Hq) as (s0 & Hs0 & Hs0').
    destruct (decide (q = p)) as [->|Hne].
    + exists s'. rewrite lookup_insert_eq. split; [reflexivity|]. congruence.
    + exists s0. rewrite lookup_insert_ne by congruence. auto.
  - exact Hinj.
Qed.

Lemma reachable_invariant (st : State W R) :
  reachable uuid st -> registered_running st /\ registry_injective st.
Proof.
  induction 1 as [|os st _ [IH1 IH2]|sessionID st _ [IH1 IH2]
                  |fuel p command st st' res _ [IH1 IH2] E].
  - split.
    + intros sessionID p Hp. simpl in Hp. rewrite lookup_empty in Hp.
      discriminate.
    + intros id1 id2 p Hp. simpl in Hp. rewrite lookup_empty in Hp.
      discriminate.
  - apply CreateSession_invariant; assumption.
  - apply EndSession_invariant; assumption.
  - eapply Session_RunCommand_invariant; eassumption.
Qed.

(** C7. [EndSession] fails with the not-found error exactly when the
    identifier is absent from the registry, and then the state is
    unchanged. Otherwise it closes the input stream of the session, kills
    its process, sets its running flag to false and removes the identifier
    from the registry, so that a lookup of the identifier then reports
    that it is not found. *)
Theorem EndSession_spec (st : State W R) (sessionID : string) :
  reachable uuid st ->
  ((exists e, snd (EndSession sessionID st) = Some e /\ NotFoundError e)
   <-> sessions st !! sessionID = None) /\
  (sessions st !! sessionID = None -> fst (EndSession sessionID st) = st) /\
  (forall p,
      sessions st !! sessionID = Some p ->
      exists s,
        heap st !! p = Some s /\
        snd (EndSession sessionID st) = None /\
        heap (fst (EndSession sessionID st)) !! p =
          Some (mkSession (ID s) Killed (fst (Close (Stdin s)))
                          (Stdout s) (Stderr s) false) /\
        (forall q, q <> p ->
                   heap (fst (EndSession sessionID st)) !! q = heap st !! q) /\
        sessions (fst (EndSession sessionID st)) =
          delete sessionID (sessions st) /\
        GetSession sessionID (fst (EndSession sessionID st)) = (None, false)).
Proof.
  intros Hreach. apply reachable_invariant in Hreach.
  destruct Hreach as [Hrun _].
  unfold EndSession, GetSession.
  destruct (sessions st !! sessionID) as [p|] eqn:Ep; simpl.
  - split; [|split].
    + split; [|discriminate]. intros (e & E & _). discriminate.
    + discriminate.
    + intros q [= <-]. destruct (Hrun _ _ Ep) as (s & Hs & Hs').
      exists s. split; [assumption|]. split; [reflexivity|]. split.
      * rewrite lookup_alter_eq, Hs. simpl. unfold terminate.
        rewrite Hs'. reflexivity.
      * split; [|split].
        -- intros q' Hne. apply lookup_alter_ne. congruence.
        -- reflexivity.
        -- rewrite lookup_delete_eq. reflexivity.
  - split; [|split].
    + split; [reflexivity|]. intros _. eexists. split; [reflexivity|].
      exists sessionID. reflexivity.
    + reflexivity.
    + discriminate.
Qed.

(** C8, amended. In every state of the program, each identifier of the
    registry refers to a running session; a call of [RunCommand] on the
    reference that [GetSession] returns in that state does not fail with
    the not-running error; and a call that fails with it is a call on a
    reference that the registry no longer holds. *)
Theorem registered_sessions_running (st : State W R) :
  reachable uuid st ->
  (forall sessionID p,
      sessions st !! sessionID = Some p ->
      exists s, heap st !! p = Some s /\ Running s = true) /\
  (forall sessionID p fuel command st' result e,
      GetSession sessionID st = (Some p, true) ->
      Session_RunCommand uuid fuel p command st = Some (st', (result, Some e)) ->
      ~ NotRunningError e) /\
  (forall p fuel command st' result e,
      Session_RunCommand uuid fuel p command st = Some (st', (result, Some e)) ->
      NotRunningError e ->
      forall sessionID, sessions st !! sessionID <> Some p).
Proof.
  intros Hreach. apply reachable_invariant in Hreach.
  destruct Hreach as [Hrun _].
  assert (Hstale : forall p fuel command st' result e,
             Session_RunCommand uuid fuel p command st
             = Some (st', (result, Some e)) ->
             NotRunningError e ->
             forall sessionID, sessions st !! sessionID <> Some p).
  { intros p fuel command st' result e E He sessionID Hp.
    destruct (Hrun _ _ Hp) as (s & Hs & Hs').
    unfold Session_RunCommand in E. rewrite Hs in E.
    destruct (RunCommand _ _ _ _) as [[s' [r err]]|] eqn:Er; [|discriminate].
    injection E as _ -> ->.
    apply RunCommand_error in Er. destruct Er as [(Erun & _)|(_ & [Hw|Hr])].
    - congruence.
    - exact (NotRunningError_not_WriteError _ He Hw).
    - exact (NotRunningError_not_ReadError _ He Hr). }
  split; [exact Hrun|]. split; [|exact Hstale].
  intros sessionID p fuel command st' result e Hget E He.
  unfold GetSession in Hget.
  destruct (sessions st !! sessionID) as [q|] eqn:Eq; [|discriminate].
  injection Hget as ->.
  exact (Hstale _ _ _ _ _ _ E He sessionID Eq).
Qed.

Lemma RunCommand_Stdin fuel marker (s s' : Session W R) command res :
  Running s = true ->
  RunCommand fuel marker s command = Some (s', res) ->
  Stdin s' =
  fst (Write (Stdin s) (list_byte_of_string (fullCommand command marker))).
Proof.
  intros Hrun. unfold RunCommand. rewrite Hrun. simpl.
  destruct (Write _ _) as [w [n [e|]]]; simpl.
  - intros [= <- _]. reflexivity.
  - destruct (readLoop _ _ _ _) as [[r' res']|]; [|discriminate].
    intros [= <- _]. reflexivity.
Qed.

(** C9. Two consecutive calls of [RunCommand] on a session draw two
    UUIDs, one each, and each call uses its own as its marker: it is the
    marker named in the text the call writes to [Stdin], and the marker
    whose occurrence ends its read. When the generator gives the two calls
    distinct values (of one length, as the strings of UUIDs are), the
    wrapped commands of the two calls name different markers; a second
    call that returns a result has stopped on the bound or has returned at
    an occurrence of its own marker, at an index where the marker of the
    first call does not occur; and output of the second call that holds
    the marker of the first call as text does not end the read there: the
    call returns that text, the marker of the first call included, up to
    its own marker. *)
Theorem consecutive_markers_differ (st st1 : State W R) (p : ref)
    (s s1 : Session W R) (fuel1 : nat) (command1 : string)
    (res1 : string * option error) :
  let marker1 := uuid (drawn st) in
  let marker2 := uuid (S (drawn st)) in
  heap st !! p = Some s ->
  Running s = true ->
  marker1 <> marker2 ->
  String.length marker1 = String.length marker2 ->
  Session_RunCommand uuid fuel1 p command1 st = Some (st1, res1) ->
  heap st1 !! p = Some s1 ->
  (RunCommand fuel1 marker1 s command1 = Some (s1, res1) /\
   Stdin s1 =
   fst (Write (Stdin s)
          (list_byte_of_string (fullCommand command1 marker1))) /\
   Running s1 = true /\ drawn st1 = S (drawn st)) /\
  (forall fuel2 command2 st2 res2,
      Session_RunCommand uuid fuel2 p command2 st1 = Some (st2, res2) ->
      exists s2,
        heap st2 !! p = Some s2 /\
        RunCommand fuel2 marker2 s1 command2 = Some (s2, res2) /\
        Stdin s2 =
        fst (Write (Stdin s1)
               (list_byte_of_string (fullCommand command2 marker2))) /\
        fullCommand command2 marker2 <> fullCommand command2 marker1 /\
        forall result,
          res2 = (result, None) ->
          exists k r out,
            iterations k marker2 (Stdout s1) [] = Some (r, out) /\
            let buffer := out ++ fst (snd (Read r bufferSize)) in
            (exists i,
                occursAt (list_byte_of_string marker2) buffer i /\
                ~ occursAt (list_byte_of_string marker1) buffer i /\
                result
                = trimTerminator (string_of_list_byte (firstn i buffer))) \/
            ((maxOutput < Z.of_nat (length buffer))%Z /\
             result = string_of_list_byte buffer)) /\
  (forall fuel2 command2 pre mid post err,
      let text := pre ++ list_byte_of_string marker1 ++ mid in
      let chunk := text ++ list_byte_of_string marker2 ++ post in
      snd (snd (Write (Stdin s1)
                  (list_byte_of_string (fullCommand command2 marker2))))
      = None ->
      snd (Read (Stdout s1) bufferSize) = (chunk, err) ->
      isFailure err = false ->
      (forall j, j < length text -> j <> length pre ->
                 ~ occursAt (list_byte_of_string marker2) chunk j) ->
      option_map snd (Session_RunCommand uuid (S fuel2) p command2 st1)
      = Some (trimTerminator (string_of_list_byte text), None)).
Proof.
  intros marker1 marker2 Hs Hrun Hneq Hlen E Hs1.
  unfold Session_RunCommand in E. rewrite Hs in E.
  destruct (RunCommand fuel1 (uuid (drawn st)) s command1) as [[s0 r]|] eqn:Er;
    [|discriminate].
  injection E as <- <-. rewrite Hrun in *. cbn [heap sessions drawn] in *.
  rewrite lookup_insert_eq in Hs1. injection Hs1 as ->.
  pose proof (RunCommand_preserves _ _ _ _ _ _ Er) as (_ & _ & Hsame & _).
  assert (Hrun1 : Running s1 = true) by congruence.
  assert (Hbytes : length (list_byte_of_string marker1)
                   = length (list_byte_of_string marker2)).
  { rewrite !length_list_byte_of_string. assumption. }
  assert (Hnot : forall buffer i,
             occursAt (list_byte_of_string marker2) buffer i ->
             ~ occursAt (list_byte_of_string marker1) buffer i).
  { intros buffer i H2' H1'. apply Hneq.
    apply list_byte_of_string_inj.
    exact (occursAt_same_index _ _ _ _ H1' H2' Hbytes). }
  split; [|split].
  - split; [assumption|]. split; [|auto].
    eapply RunCommand_Stdin; eassumption.
  - intros fuel2 command2 st2 res2 E2.
    unfold Session_RunCommand in E2. cbn [heap sessions drawn] in E2.
    rewrite lookup_insert_eq, Hrun1 in E2.
    destruct (RunCommand fuel2 (uuid (S (drawn st))) s1 command2)
      as [[s2 r2]|] eqn:Er2; [|discriminate].
    injection E2 as <- <-. exists s2. cbn [heap].
    split; [apply lookup_insert_eq|]. split; [exact Er2|].
    split; [eapply RunCommand_Stdin; eassumption|].
    split.
    { intros Efull. apply Hneq. symmetry.
      exact (fullCommand_marker_inj _ _ _ (eq_sym Hlen) Efull). }
    intros result ->.
    destruct (snd (snd (Write (Stdin s1)
               (list_byte_of_string (fullCommand command2 marker2)))))
      as [we|] eqn:Ew.
    + rewrite (RunCommand_write_fails _ _ _ _ we Hrun1 Ew) in Er2.
      discriminate.
    + rewrite (RunCommand_reads _ _ _ _ Hrun1 Ew) in Er2.
      destruct (readLoop fuel2 marker2 (Stdout s1) [])
        as [[stdout' res']|] eqn:El; [|discriminate].
      injection Er2 as _ ->.
      apply readLoop_result in El.
      destruct El as (k & r' & out & Hit & _ & Hres).
      exists k, r', out. split; [assumption|].
      simpl in *. destruct Hres as [(i & Hocc & ->)|Hbreak].
      * left. exists i. split; [assumption|]. split; [|reflexivity].
        apply Hnot. assumption.
      * right. assumption.
  - intros fuel2 command2 pre mid post err.
    set (text := pre ++ list_byte_of_string marker1 ++ mid).
    set (chunk := text ++ list_byte_of_string marker2 ++ post).
    intros Ew Erd Herr Hfirst.
    assert (Hocc2 : occursAt (list_byte_of_string marker2) chunk (length text)).
    { exists text, post. split; reflexivity. }
    assert (Hocc1 : occursAt (list_byte_of_string marker1) chunk (length pre)).
    { exists pre, (mid ++ list_byte_of_string marker2 ++ post).
      split; [|reflexivity]. unfold chunk, text.
      rewrite <- !app_assoc. reflexivity. }
    assert (Hpos : 0 < length (list_byte_of_string marker2)).
    { rewrite length_list_byte_of_string.
      destruct marker2 as [|a m2] eqn:E2; [|simpl; lia].
      exfalso. apply Hneq. destruct marker1; [reflexivity|discriminate]. }
    assert (Hchunk : 0 < length chunk).
    { unfold chunk. rewrite !length_app. lia. }
    assert (Hfind : findMarker ([] ++ chunk) (length chunk) marker2
                    = Some (length text)).
    { apply findMarker_Some. simpl.
      split; [lia|]. split; [assumption|].
      intros j Hj Hocc.
      destruct (Nat.eq_dec j (length pre)) as [->|Hne].
      - exact (Hnot _ _ Hocc Hocc1).
      - apply (Hfirst j); [lia|assumption|assumption]. }
    pose proof (readLoop_found 0 fuel2 marker2 (Stdout s1) (Stdout s1) [] []
                  chunk err (length text) eq_refl Erd Herr Hchunk Hfind)
      as Hfound.
    change (0 + S fuel2) with (S fuel2) in Hfound.
    change ([] ++ chunk) with chunk in Hfound.
    unfold chunk in Hfound. rewrite take_app_length in Hfound.
    unfold Session_RunCommand. cbn [heap sessions drawn].
    rewrite lookup_insert_eq.
    rewrite (RunCommand_reads _ _ _ _ Hrun1 Ew), Hfound.
    reflexivity.
Qed.

End Registry.

Lemma reachable_state1 : reachable exampleUUID state1.
Proof. apply reachable_CreateSession, reachable_new. Qed.

Lemma EndSession_spec_witness :
  exists s,
    heap state1 !! 1%positive = Some s /\
    snd (EndSession sessionID1 state1) = None /\
    heap (fst (EndSession sessionID1 state1)) !! 1%positive =
      Some (mkSession (ID s) Killed (fst (Close (Stdin s)))
                      (Stdout s) (Stderr s) false) /\
    (forall q, q <> 1%positive ->
       heap (fst (EndSession sessionID1 state1)) !! q = heap state1 !! q) /\
    sessions (fst (EndSession sessionID1 state1)) =
      delete sessionID1 (sessions state1) /\
    GetSession sessionID1 (fst (EndSession sessionID1 state1)) = (None, false).
Proof.
  apply (proj2 (proj2 (EndSession_spec exampleUUID state1 sessionID1
                         reachable_state1))).
  vm_compute. reflexivity.
Defined.

(** C8, as the claim states it, fails: the reference that [GetSession]
    returned is still in the hands of its caller after [EndSession], and a
    call of [RunCommand] on it fails with the not-running error. *)
Lemma stale_reference_not_running :
  GetSession sessionID1 state1 = (Some 1%positive, true) /\
  EndSession sessionID1 state1 = (state2, None) /\
  reachable exampleUUID state2 /\
  Session_RunCommand exampleUUID 1 1%positive "dir" state2 =
  Some (state2, ("", Some (errorString "session is not running"))) /\
  NotRunningError (errorString "session is not running").
Proof.
  split; [vm_compute; reflexivity|]. split; [vm_compute; reflexivity|].
  split; [apply reachable_EndSession, reachable_state1|].
  split; [vm_compute; reflexivity|]. reflexivity.
Qed.

Lemma registered_sessions_running_witness :
  exists s, heap state1 !! 1%positive = Some s /\ Running s = true.
Proof.
  apply (proj1 (registered_sessions_running exampleUUID state1
                  reachable_state1) sessionID1 1%positive).
  vm_compute. reflexivity.
Defined.

Lemma consecutive_markers_differ_witness :
  option_map snd (Session_RunCommand exampleUUID 1 1%positive "dir" state6)
  = Some (trimTerminator
            (string_of_list_byte
               ([] ++ list_byte_of_string marker1 ++ list_byte_of_string CRLF)),
          None).
Proof.
  destruct (consecutive_markers_differ exampleUUID state5 state6 1%positive
              (exampleSession openPipe twoOutputs) afterFirst 1 "echo hello"
              ("hello", None)) as (_ & _ & Htext).
  - vm_compute. reflexivity.
  - reflexivity.
  - vm_compute. discriminate.
  - vm_compute. reflexivity.
  - vm_compute. reflexivity.
  - vm_compute. reflexivity.
  - apply (Htext 0 "dir" [] (list_byte_of_string CRLF)
             (list_byte_of_string (String LF "")) None).
    + vm_compute. reflexivity.
    + vm_compute. reflexivity.
    + reflexivity.
    + intros j Hj Hne Hocc. apply occursAtb_spec in Hocc.
      vm_compute in Hj.
      do 38 (destruct j as [|j];
             [try (vm_compute in Hocc; discriminate Hocc);
              exfalso; apply Hne; reflexivity|]).
      lia.
Defined.

(** ** Concurrent calls on one session *)

Section Concurrency.

Context {W R : Type} `{WriteCloser W} `{ReadCloser R}.
Context (uuid : nat -> string).

Lemma step_lock (c : call) (at_ at' : place) (sh sh' : Shared W R) :
  step uuid c at_ sh = Some (at', sh') ->
  (at_ = AtLock /\ mu sh = false /\ mu sh' = true /\ holdsLock at' = true) \/
  (holdsLock at_ = true /\
   ((holdsLock at' = true /\ mu sh' = mu sh) \/
    (holdsLock at' = false /\ mu sh' = false))).
Proof.
  unfold step. destruct at_, c; try discriminate.
  - destruct (mu sh) eqn:Emu; [discriminate|]. intros [= <- <-]. left. auto.
  - destruct (mu sh) eqn:Emu; [discriminate|]. intros [= <- <-]. left. auto.
  - destruct (negb (Running (session sh))); intros [= <- <-]; right; auto.
  - destruct (Write _ _) as [w [n [e|]]]; intros [= <- <-]; right; auto.
  - destruct (Read _ _) as [r rd].
    destruct (loopBody marker output rd); intros [= <- <-]; right; auto.
  - intros [= <- <-]. right. auto.
Qed.

Lemma gstep_inv (i : nat) (cfg cfg' : Config W R) :
  gstep uuid i cfg = Some cfg' ->
  exists c at_ at',
    threads cfg !! i = Some (c, at_) /\
    step uuid c at_ (shared cfg) = Some (at', shared cfg') /\
    threads cfg' = <[i := (c, at')]> (threads cfg).
Proof.
  unfold gstep. destruct (threads cfg !! i) as [[c at_]|] eqn:Ei;
    [|discriminate].
  destruct (step uuid c at_ (shared cfg)) as [[at' sh']|] eqn:Es; [|discriminate].
  intros [= <-]. exists c, at_, at'. auto.
Qed.

Lemma exclusive_step (i : nat) (cfg cfg' : Config W R) :
  exclusive cfg -> gstep uuid i cfg = Some cfg' -> exclusive cfg'.
Proof.
  intros (Hfree & Hone & Hheld) Hstep.
  apply gstep_inv in Hstep.
  destruct Hstep as (c & at_ & at' & Ei & Es & Et).
  assert (Hlook : forall j t,
             threads cfg' !! j = Some t ->
             (j = i /\ t = (c, at')) \/ (j <> i /\ threads cfg !! j = Some t)).
  { intros j t Hj. rewrite Et in Hj.
    apply list_lookup_insert_Some in Hj.
    destruct Hj as [(-> & <- & _)|[Hne Hj]]; [left|right]; auto. }
  assert (Hi : threads cfg' !! i = Some (c, at')).
  { rewrite Et. apply list_lookup_insert_eq.
    exact (lookup_lt_Some _ _ _ Ei). }
  apply step_lock in Es.
  destruct Es as [(-> & Emu & Emu' & Hat')
                 |(Hat & [[Hat' Emu']|[Hat' Emu']])].
  - split; [congruence|]. split.
    + intros a b ta tb Ha Hb Hha Hhb.
      destruct (Hlook _ _ Ha) as [[-> ->]|[Hna Ha']];
        destruct (Hlook _ _ Hb) as [[-> ->]|[Hnb Hb']]; try reflexivity.
      * rewrite (Hfree Emu _ _ Hb') in Hhb. discriminate.
      * rewrite (Hfree Emu _ _ Ha') in Hha. discriminate.
      * rewrite (Hfree Emu _ _ Ha') in Hha. discriminate.
    + intros _. exists i, (c, at'). auto.
  - split; [|split].
    + intros Emu. rewrite Emu' in Emu.
      pose proof (Hfree Emu _ _ Ei) as Hn. simpl in Hn. congruence.
    + intros a b ta tb Ha Hb Hha Hhb.
      assert (Ea : a = i).
      { destruct (Hlook _ _ Ha) as [[-> _]|[_ Ha']]; [reflexivity|].
        exact (Hone _ _ _ _ Ha' Ei Hha Hat). }
      assert (Eb : b = i).
      { destruct (Hlook _ _ Hb) as [[-> _]|[_ Hb']]; [reflexivity|].
        exact (Hone _ _ _ _ Hb' Ei Hhb Hat). }
      congruence.
    + intros _. exists i, (c, at'). auto.
  - assert (Hnone : forall j t,
               threads cfg' !! j = Some t -> holdsLock (snd t) = false).
    { intros j t Hj. destruct (Hlook _ _ Hj) as [[-> ->]|[Hne Hj']].
      - assumption.
      - destruct (holdsLock (snd t)) eqn:Ht; [|reflexivity].
        exfalso. apply Hne. exact (Hone _ _ _ _ Hj' Ei Ht Hat). }
    split; [|split].
    + intros _. exact Hnone.
    + intros a b ta tb Ha Hb Hha Hhb.
      rewrite (Hnone _ _ Ha) in Hha. discriminate.
    + congruence.
Qed.

Lemma exclusive_initial (cfg : Config W R) : initial cfg -> exclusive cfg.
Proof.
  intros [Emu Hall]. split; [|split].
  - intros _ j t Hj. rewrite (Hall _ _ Hj). reflexivity.
  - intros i j ti tj Hi Hj Hhi. rewrite (Hall _ _ Hi) in Hhi. discriminate.
  - congruence.
Qed.

Lemma exclusive_reachable (cfg0 cfg : Config W R) :
  initial cfg0 -> rtc (steps uuid) cfg0 cfg -> exclusive cfg.
Proof.
  intros Hinit Hrtc. refine (rtc_ind_r exclusive cfg0 _ _ cfg Hrtc).
  - apply exclusive_initial. assumption.
  - intros cfg1 cfg2 _ [i Hstep] IH. eapply exclusive_step; eassumption.
Qed.

Lemma run_steps (schedule : list nat) (cfg cfg' : Config W R) :
  run uuid schedule cfg = Some cfg' -> rtc (steps uuid) cfg cfg'.
Proof.
  revert cfg. induction schedule as [|i schedule IH]; intros cfg E; simpl in E.
  - injection E as ->. apply rtc_refl.
  - destruct (gstep uuid i cfg) as [cfg1|] eqn:E1; [|discriminate].
    eapply rtc_l; [exists i; eassumption|]. apply IH. assumption.
Qed.

Lemma inFlight_holdsLock (t : call * place) :
  inFlight t = true -> holdsLock (snd t) = true.
Proof. destruct t as [[c|] []]; simpl; congruence. Qed.

(** C10. From calls that are all about to lock the mutex, however the
    goroutines are interleaved: at most one command is in flight; while a
    command is in flight, in its read loop too, the mutex is held, every
    other goroutine is unable to move, and the next step of the whole
    program is a step of that command; and once no call is between [Lock]
    and [Unlock], the mutex is free and a call that waits for it locks
    it. *)
Theorem RunCommand_serialized (cfg0 cfg : Config W R) :
  initial cfg0 ->
  rtc (steps uuid) cfg0 cfg ->
  (forall i j ti tj,
      threads cfg !! i = Some ti -> threads cfg !! j = Some tj ->
      inFlight ti = true -> inFlight tj = true -> i = j) /\
  (forall i ti,
      threads cfg !! i = Some ti -> inFlight ti = true ->
      mu (shared cfg) = true /\
      (forall j tj, j <> i -> threads cfg !! j = Some tj ->
                    step uuid (fst tj) (snd tj) (shared cfg) = None) /\
      (forall j cfg', gstep uuid j cfg = Some cfg' -> j = i)) /\
  ((forall i ti, threads cfg !! i = Some ti -> holdsLock (snd ti) = false) ->
   mu (shared cfg) = false /\
   forall j c, threads cfg !! j = Some (c, AtLock) ->
               exists cfg',
                 gstep uuid j cfg = Some cfg' /\
                 mu (shared cfg') = true /\
                 exists at', threads cfg' !! j = Some (c, at') /\
                             holdsLock at' = true).
Proof.
  intros Hinit Hrtc.
  destruct (exclusive_reachable _ _ Hinit Hrtc) as (Hfree & Hone & Hheld).
  assert (Hblocked : forall i ti j tj,
             threads cfg !! i = Some ti -> inFlight ti = true ->
             j <> i -> threads cfg !! j = Some tj ->
             step uuid (fst tj) (snd tj) (shared cfg) = None).
  { intros i ti j tj Hi Hfl Hne Hj.
    apply inFlight_holdsLock in Hfl.
    assert (Emu : mu (shared cfg) = true).
    { destruct (mu (shared cfg)) eqn:Emu; [reflexivity|].
      rewrite (Hfree eq_refl _ _ Hi) in Hfl. discriminate. }
    destruct (step uuid (fst tj) (snd tj) (shared cfg)) as [[at' sh']|] eqn:Es;
      [|reflexivity].
    exfalso. apply step_lock in Es.
    destruct Es as [(_ & Emu' & _)|(Hat & _)].
    - congruence.
    - apply Hne. exact (Hone _ _ _ _ Hj Hi Hat Hfl). }
  split; [|split].
  - intros i j ti tj Hi Hj Hfi Hfj.
    apply inFlight_holdsLock in Hfi. apply inFlight_holdsLock in Hfj.
    exact (Hone _ _ _ _ Hi Hj Hfi Hfj).
  - intros i ti Hi Hfl. split; [|split].
    + destruct (mu (shared cfg)) eqn:Emu; [reflexivity|].
      apply inFlight_holdsLock in Hfl.
      rewrite (Hfree eq_refl _ _ Hi) in Hfl. discriminate.
    + intros j tj Hne Hj. exact (Hblocked _ _ _ _ Hi Hfl Hne Hj).
    + intros j cfg' Hstep. apply gstep_inv in Hstep.
      destruct Hstep as (c & at_ & at' & Ej & Es & _).
      destruct (Nat.eq_dec j i) as [|Hne]; [assumption|].
      pose proof (Hblocked _ _ _ _ Hi Hfl Hne Ej) as Hb. simpl in Hb.
      congruence.
  - intros Hnone.
    assert (Emu : mu (shared cfg) = false).
    { destruct (mu (shared cfg)) eqn:Emu; [|reflexivity].
      destruct (Hheld eq_refl) as (i & t & Hi & Ht).
      rewrite (Hnone _ _ Hi) in Ht. discriminate. }
    split; [exact Emu|].
    intros j c Hj. pose proof (lookup_lt_Some _ _ _ Hj) as Hlt.
    unfold gstep. rewrite Hj.
    destruct c; simpl; rewrite Emu; eexists; (split; [reflexivity|]);
      (split; [reflexivity|]); eexists; cbn [threads];
      (split; [apply list_lookup_insert_eq; assumption|reflexivity]).
Qed.

(** A goroutine that runs alone makes the call the way [RunCommand] does:
    it locks, checks, writes, and iterates the loop until it returns. *)
Lemma run_alone_loop (i fuel : nat) (command marker : string)
    (ts : list (call * place)) (s : Session W R) (k : nat)
    (output : list byte) (stdout' : R) (res : string * option error) :
  i < length ts ->
  readLoop fuel marker (Stdout s) output = Some (stdout', res) ->
  exists n,
    run uuid (repeat i n)
        (mkConfig (<[i := (CallRunCommand command, AtRead marker output)]> ts)
                  (mkShared true s k))
    = Some (mkConfig
              (<[i := (CallRunCommand command, Returned (fst res) (snd res))]>
                 ts)
              (mkShared false (withStdout s stdout') k)).
Proof.
  intros Hi. revert s output. induction fuel as [|fuel IH];
    intros s output E; [discriminate|].
  rewrite readLoop_S in E.
  assert (Hstep : forall at' sh',
    step uuid (CallRunCommand command) (AtRead marker output) (mkShared true s k)
    = Some (at', sh') ->
    gstep uuid i (mkConfig
               (<[i := (CallRunCommand command, AtRead marker output)]> ts)
               (mkShared true s k))
    = Some (mkConfig (<[i := (CallRunCommand command, at')]> ts) sh')).
  { intros at' sh' Es. unfold gstep. cbn [threads shared].
    rewrite list_lookup_insert_eq by assumption. rewrite Es.
    rewrite list_insert_insert_eq. reflexivity. }
  destruct (loopBody marker output (snd (Read (Stdout s) bufferSize)))
    as [result err|output'|output'] eqn:Eb.
  - injection E as <- <-. exists 1. simpl.
    rewrite (Hstep (Returned result err)
               (mkShared false (withStdout s (fst (Read (Stdout s) bufferSize))) k));
      [reflexivity|].
    simpl. destruct (Read (Stdout s) bufferSize) as [r rd]. simpl in *.
    rewrite Eb. reflexivity.
  - injection E as <- <-. exists 1. simpl.
    rewrite (Hstep (Returned (string_of_list_byte output') None)
               (mkShared false (withStdout s (fst (Read (Stdout s) bufferSize))) k));
      [reflexivity|].
    simpl. destruct (Read (Stdout s) bufferSize) as [r rd]. simpl in *.
    rewrite Eb. reflexivity.
  - specialize (IH (withStdout s (fst (Read (Stdout s) bufferSize))) output' E).
    destruct IH as [n IH]. exists (S n). simpl.
    rewrite (Hstep (AtRead marker output')
               (mkShared true (withStdout s (fst (Read (Stdout s) bufferSize))) k)).
    + rewrite IH. reflexivity.
    + simpl. destruct (Read (Stdout s) bufferSize) as [r rd]. simpl in *.
      rewrite Eb. reflexivity.
Qed.

Lemma gstep_at (i : nat) (c : call) (at_ at' : place)
    (ts : list (call * place)) (sh sh' : Shared W R) :
  i < length ts ->
  step uuid c at_ sh = Some (at', sh') ->
  gstep uuid i (mkConfig (<[i := (c, at_)]> ts) sh)
  = Some (mkConfig (<[i := (c, at')]> ts) sh').
Proof.
  intros Hi Es. unfold gstep. cbn [threads shared].
  rewrite list_lookup_insert_eq by assumption. rewrite Es.
  rewrite list_insert_insert_eq. reflexivity.
Qed.

Lemma run_app (schedule1 schedule2 : list nat) (cfg cfg1 : Config W R) :
  run uuid schedule1 cfg = Some cfg1 ->
  run uuid (schedule1 ++ schedule2) cfg = run uuid schedule2 cfg1.
Proof.
  revert cfg. induction schedule1 as [|i schedule1 IH]; intros cfg E;
    simpl in *.
  - injection E as ->. reflexivity.
  - destruct (gstep uuid i cfg) as [cfg'|]; [|discriminate]. apply IH. assumption.
Qed.

Lemma run_alone (i fuel : nat) (command : string)
    (ts : list (call * place)) (s s' : Session W R) (k : nat)
    (res : string * option error) :
  ts !! i = Some (CallRunCommand command, AtLock) ->
  RunCommand fuel (uuid k) s command = Some (s', res) ->
  exists n,
    run uuid (repeat i n) (mkConfig ts (mkShared false s k))
    = Some (mkConfig
              (<[i := (CallRunCommand command, Returned (fst res) (snd res))]>
                 ts)
              (mkShared false s' (if Running s then S k else k))).
Proof.
  intros Ei E.
  pose proof (lookup_lt_Some _ _ _ Ei) as Hi.
  assert (Ets : ts = <[i := (CallRunCommand command, AtLock)]> ts).
  { symmetry. apply list_insert_id. assumption. }
  assert (E1 : run uuid [i] (mkConfig ts (mkShared false s k))
               = Some (mkConfig (<[i := (CallRunCommand command, AtCheck)]> ts)
                                (mkShared true s k))).
  { simpl. rewrite Ets at 1. rewrite (gstep_at i _ AtLock AtCheck ts _
                                         (mkShared true s k) Hi);
      reflexivity. }
  destruct (Running s) eqn:Erun.
  - assert (E2 : run uuid [i; i] (mkConfig ts (mkShared false s k))
                 = Some (mkConfig
                           (<[i := (CallRunCommand command, AtWrite)]> ts)
                           (mkShared true s k))).
    { change [i; i] with ([i] ++ [i]). rewrite (run_app _ _ _ _ E1). simpl.
      rewrite (gstep_at i _ AtCheck AtWrite ts _ (mkShared true s k) Hi);
        [reflexivity|].
      simpl. rewrite Erun. reflexivity. }
    destruct (snd (snd (Write (Stdin s)
               (list_byte_of_string (fullCommand command (uuid k))))))
      as [we|] eqn:Ew.
    + rewrite (RunCommand_write_fails _ _ _ _ we Erun Ew) in E.
      injection E as <- <-. exists 3.
      change (repeat i 3) with ([i; i] ++ [i]). rewrite (run_app _ _ _ _ E2).
      simpl. erewrite gstep_at; [reflexivity|assumption|].
      simpl. destruct (Write _ _) as [w [n err]]. simpl in *. subst err.
      reflexivity.
    + rewrite (RunCommand_reads _ _ _ _ Erun Ew) in E.
      destruct (readLoop fuel (uuid k) (Stdout s) []) as [[stdout' res']|]
        eqn:El; [|discriminate].
      injection E as <- <-.
      set (s1 := withStdin s
                   (fst (Write (Stdin s)
                           (list_byte_of_string
                              (fullCommand command (uuid k)))))).
      destruct (run_alone_loop i fuel command (uuid k) ts s1 (S k) []
                  stdout' res' Hi El) as [n Hn].
      exists (3 + n).
      change (repeat i (3 + n)) with ([i; i] ++ [i] ++ repeat i n).
      rewrite (run_app _ _ _ _ E2).
      assert (E3 : run uuid [i] (mkConfig
                              (<[i := (CallRunCommand command, AtWrite)]> ts)
                              (mkShared true s k))
                   = Some (mkConfig
                             (<[i := (CallRunCommand command,
                                      AtRead (uuid k) [])]> ts)
                             (mkShared true s1 (S k)))).
      { simpl. erewrite gstep_at; [reflexivity|assumption|].
        simpl. subst s1. destruct (Write _ _) as [w [n' err]]. simpl in *.
        subst err. reflexivity. }
      rewrite (run_app _ _ _ _ E3). exact Hn.
  - rewrite RunCommand_not_running in E by assumption.
    injection E as <- <-. exists 2.
    change (repeat i 2) with ([i] ++ [i]). rewrite (run_app _ _ _ _ E1).
    simpl. erewrite gstep_at; [reflexivity|assumption|].
    simpl. rewrite Erun. reflexivity.
Qed.

End Concurrency.

Lemma RunCommand_serialized_witness :
  mu (shared firstReading) = true /\
  step exampleUUID (CallRunCommand "dir") AtLock (shared firstReading) = None /\
  gstep exampleUUID 1 firstReading = None.
Proof.
  assert (Hinit : initial twoCalls).
  { split; [reflexivity|]. intros [|[|i]] t; simpl; intros [= <-]; reflexivity. }
  assert (Hrun : rtc (steps exampleUUID) twoCalls firstReading).
  { apply (run_steps exampleUUID [0; 0; 0]). vm_compute. reflexivity. }
  destruct (RunCommand_serialized exampleUUID twoCalls firstReading Hinit Hrun)
    as (_ & Hflight & _).
  destruct (Hflight 0 (CallRunCommand "echo hello", AtRead marker1 []))
    as (Hmu & Hblocked & Honly).
  - vm_compute. reflexivity.
  - reflexivity.
  - split; [exact Hmu|]. split.
    + exact (Hblocked 1 (CallRunCommand "dir", AtLock) ltac:(discriminate)
               ltac:(vm_compute; reflexivity)).
    + destruct (gstep exampleUUID 1 firstReading) as [cfg'|] eqn:E;
        [|reflexivity].
      discriminate (Honly 1 cfg' E).
Defined.

(** * Further properties of the program *)

(** ** Lengths of strings *)

Lemma length_append (a b : string) :
  String.length (a +:+ b) = String.length a + String.length b.
Proof. induction a as [|x a IH]; string_step; rewrite ?IH; reflexivity. Qed.

Lemma length_string_of_list_byte (l : list byte) :
  String.length (string_of_list_byte l) = length l.
Proof.
  unfold string_of_list_byte.
  induction l as [|b l IH]; simpl; [reflexivity|]. rewrite IH. reflexivity.
Qed.

Lemma stripped_length (s r : string) :
  stripped s r -> String.length r <= String.length s.
Proof.
  intros Hs. inversion Hs; subst; rewrite ?length_append; lia.
Qed.

Lemma trimTerminator_length (s : string) :
  String.length (trimTerminator s) <= String.length s.
Proof. apply stripped_length, trimTerminator_stripped. Qed.

(** ** Creating sessions *)

Section CreateSessionFacts.

Context {W R : Type} `{WriteCloser W} `{ReadCloser R}.
Context (uuid : nat -> string).

(** X1. A [CreateSession] whose process starts allocates a reference that
    was not in use, stores there a running session with the next UUID as
    its [ID] and the three pipes of the process, and registers it: a
    lookup of that UUID returns the new reference. Lookups of the other
    identifiers and the sessions allocated before are as they were. *)
Theorem CreateSession_registers (stdin : W) (stdout stderr : R)
    (st : State W R) :
  exists p st',
    CreateSession uuid (Started stdin stdout stderr) st
    = (st', (Some p, None)) /\
    heap st !! p = None /\
    heap st' !! p
    = Some (mkSession (uuid (drawn st)) Alive stdin stdout stderr true) /\
    GetSession (uuid (drawn st)) st' = (Some p, true) /\
    (forall sessionID, sessionID <> uuid (drawn st) ->
                       GetSession sessionID st' = GetSession sessionID st) /\
    (forall q s, heap st !! q = Some s -> heap st' !! q = Some s) /\
    drawn st' = S (drawn st).
Proof.
  eexists _, _. split; [reflexivity|]. simpl.
  assert (Hp : heap st !! fresh (dom (heap st)) = None).
  { apply not_elem_of_dom. apply is_fresh. }
  split; [exact Hp|]. split; [apply lookup_insert_eq|]. split.
  - unfold GetSession. simpl. rewrite lookup_insert_eq. reflexivity.
  - split; [|split; [|reflexivity]].
    + intros sessionID Hne. unfold GetSession. simpl.
      rewrite lookup_insert_ne by congruence. reflexivity.
    + intros q s Hq. rewrite lookup_insert_ne; [assumption|].
      intros E. rewrite E in Hp. congruence.
Qed.

(** X2. When [CreateSession] fails, its error is that of the call that
    failed: the message of that call, a pipe that could not be made or the
    process that could not be started, followed by the cause the operating
    system gave. No session is returned, and the sessions and the registry
    are as they were: the UUID that was drawn is all that is spent. *)
Theorem CreateSession_failure (os : Spawn W R) (st : State W R) (e : error) :
  snd (snd (CreateSession uuid os st)) = Some e ->
  match os with
  | StdinPipeFails cause =>
      e = Errorf_v "failed to create stdin pipe: " cause
  | StdoutPipeFails cause =>
      e = Errorf_v "failed to create stdout pipe: " cause
  | StderrPipeFails cause =>
      e = Errorf_v "failed to create stderr pipe: " cause
  | StartFails cause =>
      e = Errorf_v "failed to start powershell: " cause
  | Started _ _ _ => False
  end /\
  fst (snd (CreateSession uuid os st)) = None /\
  heap (fst (CreateSession uuid os st)) = heap st /\
  sessions (fst (CreateSession uuid os st)) = sessions st /\
  drawn (fst (CreateSession uuid os st)) = S (drawn st).
Proof.
  destruct os as [c|c|c|c|stdin stdout stderr]; simpl; intros E;
    try discriminate E; injection E as <-; repeat split; reflexivity.
Qed.

End CreateSessionFacts.

(** ** Sessions across operations *)

Section OperationFacts.

Context {W R : Type} `{WriteCloser W} `{ReadCloser R}.
Context (uuid : nat -> string).

Lemma operation_reachable (st st' : State W R) :
  reachable uuid st -> operation uuid st st' -> reachable uuid st'.
Proof.
  intros Hr Hop. destruct Hop.
  - apply reachable_CreateSession. assumption.
  - apply reachable_EndSession. assumption.
  - eapply reachable_RunCommand; eassumption.
Qed.

Lemma terminate_ID (s : Session W R) : ID (terminate s) = ID s.
Proof. unfold terminate. destruct (Running s); reflexivity. Qed.

Lemma terminate_not_running (s : Session W R) :
  Running s = false -> terminate s = s.
Proof. unfold terminate. intros ->. reflexivity. Qed.

(** What one operation does to a session that is allocated: it is still
    allocated, with the same [ID] and the same [Stderr]; and when it is
    not running it is left as it is. *)
Lemma operation_session (st st' : State W R) (p : ref) (s : Session W R) :
  operation uuid st st' ->
  heap st !! p = Some s ->
  exists s',
    heap st' !! p = Some s' /\ ID s' = ID s /\ Stderr s' = Stderr s /\
    (Running s = false -> s' = s).
Proof.
  intros Hop Hp. destruct Hop as [os st|sessionID st|fuel q command st st' res E].
  - exists s. split; [|auto].
    destruct os; simpl; try assumption.
    rewrite lookup_insert_ne; [assumption|].
    intros E. rewrite <- E in Hp.
    assert (Hf : heap st !! fresh (dom (heap st)) = None)
      by (apply not_elem_of_dom, is_fresh).
    congruence.
  - unfold EndSession. destruct (sessions st !! sessionID) as [q|]; simpl.
    + destruct (decide (q = p)) as [->|Hne].
      * exists (terminate s). rewrite lookup_alter_eq, Hp. simpl.
        split; [reflexivity|]. split; [apply terminate_ID|]. split.
        -- unfold terminate. destruct (Running s); reflexivity.
        -- apply terminate_not_running.
      * exists s. rewrite lookup_alter_ne by assumption. auto.
    + exists s. auto.
  - unfold Session_RunCommand in E.
    destruct (heap st !! q) as [s0|] eqn:Eq; [|discriminate].
    destruct (RunCommand fuel (uuid (drawn st)) s0 command) as [[s1 r]|] eqn:Er;
      [|discriminate].
    injection E as <- <-. simpl.
    destruct (decide (q = p)) as [->|Hne].
    + assert (s0 = s) by congruence. subst s0.
      exists s1. rewrite lookup_insert_eq. split; [reflexivity|].
      pose proof (RunCommand_preserves _ _ _ _ _ _ Er) as (HID & _ & _ & Herr).
      split; [assumption|]. split; [assumption|].
      intros Hrun. rewrite RunCommand_not_running in Er by assumption.
      congruence.
    + exists s. rewrite lookup_insert_ne by assumption. auto.
Qed.

Lemma reachable_registered_by_ID (st : State W R) :
  reachable uuid st -> registered_by_ID st.
Proof.
  induction 1 as [|os st Hr IH|sessionID st Hr IH
                  |fuel p command st st' res Hr IH E].
  - intros sessionID p s Hp. simpl in Hp. rewrite lookup_empty in Hp.
    discriminate.
  - destruct (reachable_invariant uuid st Hr) as [Hrun _].
    destruct os; simpl; try exact IH.
    intros sessionID q s Hq Hs. simpl in *.
    apply lookup_insert_Some in Hq. destruct Hq as [[<- <-]|[Hne Hq]].
    + rewrite lookup_insert_eq in Hs. injection Hs as <-. reflexivity.
    + destruct (Hrun _ _ Hq) as (s0 & Hs0 & _).
      rewrite lookup_insert_ne in Hs.
      * exact (IH _ _ _ Hq Hs).
      * intros E. rewrite <- E in Hs0.
        assert (Hf : heap st !! fresh (dom (heap st)) = None)
          by (apply not_elem_of_dom, is_fresh).
        congruence.
  - unfold EndSession. destruct (sessions st !! sessionID) as [p|] eqn:Ep;
      simpl; [|exact IH].
    intros id' q s Hq Hs. simpl in *.
    apply lookup_delete_Some in Hq. destruct Hq as [Hne Hq].
    destruct (decide (p = q)) as [->|Hpq].
    + rewrite lookup_alter_eq in Hs.
      destruct (heap st !! q) as [s0|] eqn:E0; [|discriminate].
      simpl in Hs. injection Hs as <-. rewrite terminate_ID.
      exact (IH _ _ _ Hq E0).
    + rewrite lookup_alter_ne in Hs by assumption. exact (IH _ _ _ Hq Hs).
  - intros sessionID q s Hq Hs.
    assert (Hop : operation uuid st st')
      by (eapply operation_RunCommand; eassumption).
    assert (Hsess : sessions st' = sessions st).
    { unfold Session_RunCommand in E.
      destruct (heap st !! p); [|discriminate].
      destruct (RunCommand _ _ _ _) as [[? ?]|]; [|discriminate].
      injection E as <- _. reflexivity. }
    rewrite Hsess in Hq.
    destruct (reachable_invariant uuid st Hr) as [Hrun _].
    destruct (Hrun _ _ Hq) as (s0 & Hs0 & _).
    destruct (operation_session _ _ _ _ Hop Hs0) as (s' & Hs' & HID & _).
    assert (s' = s) by congruence. subst s'.
    rewrite HID. exact (IH _ _ _ Hq Hs0).
Qed.

Lemma reachable_running_iff_alive (st : State W R) :
  reachable uuid st -> running_iff_alive st.
Proof.
  induction 1 as [|os st Hr IH|sessionID st Hr IH
                  |fuel p command st st' res Hr IH E].
  - intros p s Hp. simpl in Hp. rewrite lookup_empty in Hp. discriminate.
  - destruct os; simpl; try exact IH.
    intros q s Hq. simpl in Hq.
    apply lookup_insert_Some in Hq. destruct Hq as [[_ <-]|[_ Hq]].
    + simpl. tauto.
    + exact (IH _ _ Hq).
  - unfold EndSession. destruct (sessions st !! sessionID) as [p|]; simpl;
      [|exact IH].
    intros q s Hq. simpl in Hq.
    destruct (decide (p = q)) as [->|Hpq].
    + rewrite lookup_alter_eq in Hq.
      destruct (heap st !! q) as [s0|] eqn:E0; [|discriminate].
      simpl in Hq. injection Hq as <-. unfold terminate.
      destruct (Running s0) eqn:Erun.
      * simpl. split; discriminate.
      * exact (IH _ _ E0).
    + rewrite lookup_alter_ne in Hq by assumption. exact (IH _ _ Hq).
  - unfold Session_RunCommand in E.
    destruct (heap st !! p) as [s0|] eqn:E0; [|discriminate].
    destruct (RunCommand _ _ _ _) as [[s1 r]|] eqn:Er; [|discriminate].
    injection E as <- _. intros q s Hq. simpl in Hq.
    apply lookup_insert_Some in Hq. destruct Hq as [[_ <-]|[_ Hq]].
    + pose proof (RunCommand_preserves _ _ _ _ _ _ Er) as (_ & HC & HR & _).
      rewrite HC, HR. exact (IH _ _ E0).
    + exact (IH _ _ Hq).
Qed.

(** X3. When the UUID that [CreateSession] draws is already an identifier
    of the registry, the new session takes the entry, and the session that
    had it is not terminated: it is still allocated and running, its
    process alive, and no identifier of the registry refers to it any
    more, so that no [EndSession] reaches it. *)
Theorem CreateSession_collision_leaks (stdin : W) (stdout stderr : R)
    (st : State W R) (q : ref) :
  reachable uuid st ->
  sessions st !! uuid (drawn st) = Some q ->
  let st' := fst (CreateSession uuid (Started stdin stdout stderr) st) in
  exists p s,
    p <> q /\
    GetSession (uuid (drawn st)) st' = (Some p, true) /\
    heap st' !! q = Some s /\ Running s = true /\ Cmd s = Alive /\
    (forall sessionID, sessions st' !! sessionID <> Some q) /\
    (forall sessionID,
        heap (fst (EndSession sessionID st')) !! q = Some s).
Proof.
  intros Hr Hq st'.
  destruct (reachable_invariant uuid st Hr) as [Hrun Hinj].
  destruct (Hrun _ _ Hq) as (s & Hs & Hs').
  pose proof (reachable_running_iff_alive st Hr q s Hs) as Halive.
  assert (Hfresh : heap st !! fresh (dom (heap st)) = None)
    by (apply not_elem_of_dom, is_fresh).
  set (p := fresh (dom (heap st))) in *.
  assert (Hpq : p <> q) by (intros E; rewrite E in Hfresh; congruence).
  assert (Hnone : forall sessionID, sessions st' !! sessionID <> Some q).
  { intros sessionID Hx. unfold st' in Hx. simpl in Hx.
    apply lookup_insert_Some in Hx.
    destruct Hx as [[_ Hx]|[Hne Hx]]; [exact (Hpq Hx)|].
    apply Hne. exact (Hinj _ _ _ Hq Hx). }
  assert (Hq' : heap st' !! q = Some s).
  { unfold st'. simpl. rewrite lookup_insert_ne; assumption. }
  exists p, s. split; [assumption|]. split.
  { unfold GetSession, st'. simpl. rewrite lookup_insert_eq. reflexivity. }
  split; [assumption|]. split; [assumption|]. split; [tauto|].
  split; [assumption|].
  intros sessionID. unfold EndSession.
  destruct (sessions st' !! sessionID) as [x|] eqn:Ex; simpl; [|assumption].
  rewrite lookup_alter_ne; [assumption|].
  intros ->. exact (Hnone _ Ex).
Qed.

(** X4. The identity of a session does not change: in every state of the
    program the session that a lookup returns has the identifier looked
    up as its [ID]; and whatever operations follow, a session that is
    allocated stays allocated at its reference with the same [ID]. *)
Theorem session_ID_immutable (st : State W R) :
  reachable uuid st ->
  (forall sessionID p,
      GetSession sessionID st = (Some p, true) ->
      exists s, heap st !! p = Some s /\ ID s = sessionID) /\
  (forall st' p s,
      rtc (operation uuid) st st' ->
      heap st !! p = Some s ->
      exists s', heap st' !! p = Some s' /\ ID s' = ID s).
Proof.
  intros Hr. split.
  - intros sessionID p Hget. unfold GetSession in Hget.
    destruct (sessions st !! sessionID) as [q|] eqn:Eq; [|discriminate].
    injection Hget as ->.
    destruct (reachable_invariant uuid st Hr) as [Hrun _].
    destruct (Hrun _ _ Eq) as (s & Hs & _).
    exists s. split; [assumption|].
    exact (reachable_registered_by_ID st Hr _ _ _ Eq Hs).
  - clear Hr. intros st' p s Hrtc. revert s.
    induction Hrtc as [st|st st1 st2 Hop _ IH]; intros s Hs.
    + exists s. auto.
    + destruct (operation_session _ _ _ _ Hop Hs) as (s1 & Hs1 & HID & _).
      destruct (IH s1 Hs1) as (s2 & Hs2 & HID2).
      exists s2. split; [assumption|]. congruence.
Qed.

(** X5. In every state of the program, for every session that was ever
    created, registered or not: the session is running exactly when its
    process has not been killed. *)
Theorem process_alive_iff_running (st : State W R) (p : ref)
    (s : Session W R) :
  reachable uuid st ->
  heap st !! p = Some s ->
  (Running s = true <-> Cmd s = Alive) /\
  (Running s = false <-> Cmd s = Killed).
Proof.
  intros Hr Hs. pose proof (reachable_running_iff_alive st Hr p s Hs) as Hiff.
  split; [assumption|].
  destruct (Running s), (Cmd s); split; intros; try reflexivity;
    try discriminate; exfalso; destruct Hiff as [H1' H2'];
    try (discriminate (H1' eq_refl)); try (discriminate (H2' eq_refl)).
Qed.

(** X6. The running flag goes one way: a session that is not running is
    never changed again. Whatever operations follow, on whatever
    identifiers and references, the session stays at its reference exactly
    as it was: not restarted, and with streams that nothing has written to
    or read from. *)
Theorem terminated_session_frozen (st st' : State W R) (p : ref)
    (s : Session W R) :
  rtc (operation uuid) st st' ->
  heap st !! p = Some s ->
  Running s = false ->
  heap st' !! p = Some s.
Proof.
  intros Hrtc. induction Hrtc as [st|st st1 st2 Hop _ IH]; intros Hs Hrun.
  - assumption.
  - destruct (operation_session _ _ _ _ Hop Hs) as (s1 & Hs1 & _ & _ & Hsame).
    rewrite (Hsame Hrun) in Hs1. exact (IH Hs1 Hrun).
Qed.

(** X7. Ending a session twice: the second [EndSession] of an identifier
    fails with the not-found error and changes nothing, whether the first
    one found the session or not. *)
Theorem EndSession_twice (sessionID : string) (st : State W R) :
  EndSession sessionID (fst (EndSession sessionID st))
  = (fst (EndSession sessionID st),
     Some (Errorf_s "session not found: " sessionID)).
Proof.
  unfold EndSession at 2 3.
  destruct (sessions st !! sessionID) as [p|] eqn:Ep; simpl.
  - unfold EndSession. simpl. rewrite lookup_delete_eq. reflexivity.
  - unfold EndSession. rewrite Ep. reflexivity.
Qed.

End OperationFacts.

(** ** Results of [RunCommand] *)

Section RunCommandResults.

Context {W R : Type} `{WriteCloser W} `{ReadCloser R}.

Implicit Types (s : Session W R) (marker command : string).

Lemma RunCommand_error_result fuel marker s command s' result (e : error) :
  RunCommand fuel marker s command = Some (s', (result, Some e)) ->
  result = "".
Proof.
  intros E. destruct (Running s) eqn:Erun.
  - destruct (snd (snd (Write (Stdin s)
               (list_byte_of_string (fullCommand command marker))))) as [we|]
      eqn:Ew.
    + rewrite (RunCommand_write_fails _ _ _ _ we Erun Ew) in E. congruence.
    + rewrite (RunCommand_reads _ _ _ _ Erun Ew) in E.
      destruct (readLoop _ _ _ _) as [[r [res err]]|] eqn:El; [|discriminate].
      injection E as _ -> ->. eapply readLoop_error. eassumption.
  - rewrite RunCommand_not_running in E by assumption. congruence.
Qed.

(** The buffer of the loop is under the bound at the head of every
    iteration. *)
Lemma iterations_bound (k : nat) marker (stdout stdout' : R)
    (output out : list byte) :
  iterations k marker stdout output = Some (stdout', out) ->
  (Z.of_nat (length output) <= maxOutput)%Z ->
  (Z.of_nat (length out) <= maxOutput)%Z.
Proof.
  revert stdout output. induction k as [|k IH]; intros stdout output E Hle.
  - injection E as _ <-. assumption.
  - simpl in E. destruct (Read stdout bufferSize) as [r [chunk err]].
    rewrite loopBody_spec in E.
    destruct (isFailure err); [discriminate|].
    destruct (if (0 <? length chunk)%nat then _ else _); [discriminate|].
    destruct (Z.ltb_spec maxOutput (Z.of_nat (length (output ++ chunk))));
      [discriminate|].
    eapply IH; eassumption.
Qed.

(** X8. A call of [RunCommand] that fails returns the empty string, and
    its error is of exactly one of three kinds: the session was not
    running, the write failed, or a read failed. *)
Theorem RunCommand_failure_kinds fuel marker s command s' result (e : error) :
  RunCommand fuel marker s command = Some (s', (result, Some e)) ->
  result = "" /\
  ((NotRunningError e /\ ~ WriteError e /\ ~ ReadError e) \/
   (WriteError e /\ ~ NotRunningError e /\ ~ ReadError e) \/
   (ReadError e /\ ~ NotRunningError e /\ ~ WriteError e)).
Proof.
  intros E. split; [eapply RunCommand_error_result; eassumption|].
  apply RunCommand_error in E.
  destruct E as [(_ & He & _)|(_ & [Hw|Hr])].
  - left. split; [assumption|]. split.
    + apply NotRunningError_not_WriteError. assumption.
    + apply NotRunningError_not_ReadError. assumption.
  - right. left. split; [assumption|]. split.
    + intros He. exact (NotRunningError_not_WriteError _ He Hw).
    + apply WriteError_not_ReadError. assumption.
  - right. right. split; [assumption|]. split.
    + intros He. exact (NotRunningError_not_ReadError _ He Hr).
    + intros Hw. exact (WriteError_not_ReadError _ Hw Hr).
Qed.

(** X9. A [Read] that fails ends the call with the read error and the
    empty string: everything accumulated so far is dropped, and so are the
    bytes that this [Read] delivered, the marker too if it is among
    them. *)
Theorem RunCommand_read_failure_drops_output marker command s (k fuel : nat)
    (r : R) (out chunk : list byte) (msg : string) :
  Running s = true ->
  snd (snd (Write (Stdin s)
              (list_byte_of_string (fullCommand command marker)))) = None ->
  iterations k marker (Stdout s) [] = Some (r, out) ->
  snd (Read r bufferSize) = (chunk, Some (errorString msg)) ->
  option_map snd (RunCommand (k + S fuel) marker s command) =
  Some ("", Some (errorString ("failed to read output: " +:+ msg))).
Proof.
  intros Erun Ew Hit Erd.
  rewrite (RunCommand_reads _ _ _ _ Erun Ew).
  rewrite (readLoop_iterations _ _ _ _ _ _ _ Hit), readLoop_S, Erd.
  reflexivity.
Qed.

(** X10. A result of [RunCommand] is never longer than the bound and one
    buffer: [1024*1024 + 1024] bytes. *)
Theorem RunCommand_result_bounded fuel marker s command s' result :
  RunCommand fuel marker s command = Some (s', (result, None)) ->
  (Z.of_nat (String.length result) <= maxOutput + Z.of_nat bufferSize)%Z.
Proof.
  intros E. destruct (Running s) eqn:Erun.
  - destruct (snd (snd (Write (Stdin s)
               (list_byte_of_string (fullCommand command marker))))) as [we|]
      eqn:Ew.
    + rewrite (RunCommand_write_fails _ _ _ _ we Erun Ew) in E. discriminate.
    + rewrite (RunCommand_reads _ _ _ _ Erun Ew) in E.
      destruct (readLoop _ _ _ _) as [[r' [res err]]|] eqn:El; [|discriminate].
      injection E as _ -> ->.
      apply readLoop_result in El.
      destruct El as (k & r & out & Hit & _ & Hres).
      apply iterations_bound in Hit; [|simpl; unfold maxOutput; lia].
      pose proof (Read_bound r bufferSize) as Hrd.
      assert (Hbuf : (Z.of_nat (length (out ++ fst (snd (Read r bufferSize))))
                      <= maxOutput + Z.of_nat bufferSize)%Z).
      { rewrite length_app. lia. }
      simpl in Hres. destruct Hres as [(i & _ & ->)|(_ & ->)].
      * pose proof (trimTerminator_length
                      (string_of_list_byte
                         (firstn i (out ++ fst (snd (Read r bufferSize))))))
          as Ht.
        rewrite length_string_of_list_byte in Ht.
        pose proof (firstn_le_length i (out ++ fst (snd (Read r bufferSize)))).
        pose proof (length_firstn i (out ++ fst (snd (Read r bufferSize)))).
        lia.
      * rewrite length_string_of_list_byte. assumption.
  - rewrite RunCommand_not_running in E by assumption. discriminate.
Qed.

(** X11. What ends a call with a result: the call returns at the first
    read in whose bytes an occurrence of the marker starts, at the first
    such occurrence; its result is what the buffer holds before that
    index, trimmed. An occurrence that began in the bytes of an earlier
    read plays no part: it is output. *)
Theorem RunCommand_returns_at_occurrence_in_read marker command s
    (k fuel : nat) (r : R) (out chunk : list byte) (err : option error)
    (i : nat) :
  Running s = true ->
  snd (snd (Write (Stdin s)
              (list_byte_of_string (fullCommand command marker)))) = None ->
  iterations k marker (Stdout s) [] = Some (r, out) ->
  snd (Read r bufferSize) = (chunk, err) ->
  isFailure err = false ->
  0 < length chunk ->
  occursAt (list_byte_of_string marker) (out ++ chunk) i ->
  length out <= i ->
  (forall j, length out <= j < i ->
             ~ occursAt (list_byte_of_string marker) (out ++ chunk) j) ->
  option_map snd (RunCommand (k + S fuel) marker s command) =
  Some (trimTerminator (string_of_list_byte (firstn i (out ++ chunk))), None).
Proof.
  intros Erun Ew Hit Erd Herr Hn Hocc Hi Hfirst.
  rewrite (RunCommand_reads _ _ _ _ Erun Ew).
  rewrite (readLoop_found k fuel marker (Stdout s) r [] out chunk err i);
    auto.
  apply findMarker_Some. rewrite length_app.
  split; [lia|]. split; [assumption|].
  intros j Hj. apply Hfirst. lia.
Qed.

End RunCommandResults.

Section RunCommandFrame.

Context {W R : Type} `{WriteCloser W} `{ReadCloser R}.
Context (uuid : nat -> string).

(** X12. What a call of [RunCommand] leaves alone: the registry; every
    other session; and, of its own session, the [ID], the process, the
    running flag and [Stderr], which it never reads. It writes to [Stdin]
    once, the command wrapped with its marker, or not at all when the
    session is not running. *)
Theorem Session_RunCommand_frame (fuel : nat) (p : ref) (command : string)
    (st st' : State W R) (res : string * option error) :
  Session_RunCommand uuid fuel p command st = Some (st', res) ->
  sessions st' = sessions st /\
  (forall q, q <> p -> heap st' !! q = heap st !! q) /\
  exists s s',
    heap st !! p = Some s /\ heap st' !! p = Some s' /\
    ID s' = ID s /\ Cmd s' = Cmd s /\ Running s' = Running s /\
    Stderr s' = Stderr s /\
    Stdin s' =
      (if Running s
       then fst (Write (Stdin s)
                   (list_byte_of_string
                      (fullCommand command (uuid (drawn st)))))
       else Stdin s).
Proof.
  unfold Session_RunCommand. intros E.
  destruct (heap st !! p) as [s|] eqn:Ep; [|discriminate].
  destruct (RunCommand fuel (uuid (drawn st)) s command) as [[s' r]|] eqn:Er;
    [|discriminate].
  injection E as <- <-. simpl.
  split; [reflexivity|]. split.
  - intros q Hne. apply lookup_insert_ne. congruence.
  - exists s, s'. split; [reflexivity|]. split; [apply lookup_insert_eq|].
    pose proof (RunCommand_preserves _ _ _ _ _ _ Er) as (HI & HC & HR & HE).
    repeat (split; [assumption|]).
    unfold RunCommand in Er. destruct (Running s); simpl in Er.
    + destruct (Write _ _) as [w [n [e|]]]; simpl.
      * injection Er as <- _. reflexivity.
      * destruct (readLoop _ _ _ _) as [[r' res']|]; [|discriminate].
        injection Er as <- _. reflexivity.
    + injection Er as <- _. reflexivity.
Qed.

End RunCommandFrame.


(** ** The HTTP handlers *)

(** The handlers are followed one at a time: between the lookup of a
    handler and its call on the session no other handler runs. *)

Section HandlerFacts.

Context {W R : Type} `{WriteCloser W} `{ReadCloser R}.
Context (uuid : nat -> string).
Context {B : Type}.
Context (decodeRun : B -> error + string * string).
Context (decodeEnd : B -> error + string).

Lemma not_POST (r : Request B) :
  Method r <> MethodPost -> negb (String.eqb (Method r) MethodPost) = true.
Proof. intros Hm. apply String.eqb_neq in Hm. rewrite Hm. reflexivity. Qed.

Lemma is_POST (r : Request B) :
  Method r = MethodPost -> negb (String.eqb (Method r) MethodPost) = false.
Proof. intros ->. reflexivity. Qed.

Lemma nonempty (x : string) : x <> "" -> String.eqb x "" = false.
Proof. apply String.eqb_neq. Qed.

Lemma rejected_405 msg : rejected [http_Error msg StatusMethodNotAllowed].
Proof. exists msg, StatusMethodNotAllowed. auto. Qed.

Lemma rejected_400 msg : rejected [http_Error msg StatusBadRequest].
Proof. exists msg, StatusBadRequest. auto. Qed.

Lemma rejected_404 msg : rejected [http_Error msg StatusNotFound].
Proof. exists msg, StatusNotFound. auto. Qed.

Lemma Session_RunCommand_sessions fuel p command (st st' : State W R) res :
  Session_RunCommand uuid fuel p command st = Some (st', res) ->
  sessions st' = sessions st.
Proof.
  unfold Session_RunCommand. destruct (heap st !! p); [|discriminate].
  destruct (RunCommand _ _ _ _) as [[? ?]|]; [|discriminate].
  intros [= <- _]. reflexivity.
Qed.

(** What [handleRunCommand] does once the request has passed its checks
    and the registry holds the identifier. *)
Lemma handleRunCommand_found (fuel : nat) (r : Request B) (st : State W R)
    (SessionID Command : string) (p : ref) :
  Method r = MethodPost ->
  decodeRun (Body r) = inr (SessionID, Command) ->
  SessionID <> "" -> Command <> "" ->
  sessions st !! SessionID = Some p ->
  handleRunCommand uuid decodeRun fuel r st =
  match Session_RunCommand uuid fuel p Command st with
  | None => None
  | Some (st', (output, Some e)) =>
      Some (st', [http_Error ("Failed to execute command: " +:+ Error e)
                             StatusInternalServerError])
  | Some (st', (output, None)) =>
      Some (st', [Header_Set "Content-Type" "text/plain; charset=utf-8";
                  ResponseWriter_Write (list_byte_of_string output)])
  end.
Proof.
  intros Hm Hd Hs Hc Hp. unfold handleRunCommand.
  rewrite (is_POST r Hm), Hd, (nonempty _ Hs), (nonempty _ Hc). simpl.
  unfold GetSession. rewrite Hp. reflexivity.
Qed.

(** X13. A request whose method is not POST is answered by each of the
    three handlers with "Method not allowed" and status 405, before
    anything else is looked at: whatever the body is and whatever the
    operating system would answer, no UUID is drawn, no session is
    created, run or ended, and the state is as it was. *)
Theorem handlers_only_POST (os : Spawn W R) (fuel : nat) (r : Request B)
    (st : State W R) :
  Method r <> MethodPost ->
  handleStartSession uuid os r st
  = (st, [http_Error "Method not allowed" StatusMethodNotAllowed]) /\
  handleRunCommand uuid decodeRun fuel r st
  = Some (st, [http_Error "Method not allowed" StatusMethodNotAllowed]) /\
  handleEndSession decodeEnd r st
  = (st, [http_Error "Method not allowed" StatusMethodNotAllowed]).
Proof.
  intros Hm. unfold handleStartSession, handleRunCommand, handleEndSession.
  rewrite (not_POST r Hm). auto.
Qed.

(** X14. The checks of [handleRunCommand] on a POST request, in their
    order: a body that does not decode is answered with status 400; so is
    an empty session identifier or an empty command, whether or not the
    registry holds the identifier; an identifier that the registry does
    not hold is answered with status 404. In each case the handler
    returns without a call on any session: no command is run, and the
    state is as it was. *)
Theorem handleRunCommand_validation (fuel : nat) (r : Request B)
    (st : State W R) :
  Method r = MethodPost ->
  (forall e, decodeRun (Body r) = inl e ->
     handleRunCommand uuid decodeRun fuel r st
     = Some (st, [http_Error "Invalid request body" StatusBadRequest])) /\
  (forall SessionID Command,
     decodeRun (Body r) = inr (SessionID, Command) ->
     SessionID = "" \/ Command = "" ->
     handleRunCommand uuid decodeRun fuel r st
     = Some (st, [http_Error "session_id and command are required"
                             StatusBadRequest])) /\
  (forall SessionID Command,
     decodeRun (Body r) = inr (SessionID, Command) ->
     SessionID <> "" -> Command <> "" ->
     sessions st !! SessionID = None ->
     handleRunCommand uuid decodeRun fuel r st
     = Some (st, [http_Error "Session not found" StatusNotFound])).
Proof.
  intros Hm. unfold handleRunCommand. rewrite (is_POST r Hm).
  split; [|split].
  - intros e ->. reflexivity.
  - intros SessionID Command -> [-> | ->].
    + reflexivity.
    + rewrite orb_true_r. reflexivity.
  - intros SessionID Command Hd Hs Hc Hnone. rewrite Hd.
    rewrite (nonempty _ Hs), (nonempty _ Hc). simpl.
    unfold GetSession. rewrite Hnone. reflexivity.
Qed.

(** X15. Every reply of [handleRunCommand], from a state of the program.
    It is a rejection with status 405, 400 or 404, and the state is as it
    was; or status 500 with the message of a write failure or of a read
    failure, never that of a session that is not running; or the output of
    the command, unchanged, as plain text. The handler leaves the registry
    as it was, and the state it gives is again a state of the program. *)
Theorem handleRunCommand_replies (fuel : nat) (r : Request B)
    (st st' : State W R) (replies : list reply) :
  reachable uuid st ->
  handleRunCommand uuid decodeRun fuel r st = Some (st', replies) ->
  ((rejected replies /\ st' = st) \/
   (exists e, failed "Failed to execute command: " e replies /\
              (WriteError e \/ ReadError e) /\ ~ NotRunningError e) \/
   (exists p SessionID Command output,
      decodeRun (Body r) = inr (SessionID, Command) /\
      sessions st !! SessionID = Some p /\
      Session_RunCommand uuid fuel p Command st = Some (st', (output, None)) /\
      sentOutput output replies)) /\
  sessions st' = sessions st /\
  reachable uuid st'.
Proof.
  intros Hr. unfold handleRunCommand.
  destruct (negb (String.eqb (Method r) MethodPost)).
  { intros [= <- <-]. split; [left; split; [apply rejected_405|]|]; auto. }
  destruct (decodeRun (Body r)) as [e|[SessionID Command]].
  { intros [= <- <-]. split; [left; split; [apply rejected_400|]|]; auto. }
  destruct (String.eqb SessionID "" || String.eqb Command "").
  { intros [= <- <-]. split; [left; split; [apply rejected_400|]|]; auto. }
  unfold GetSession.
  destruct (sessions st !! SessionID) as [p|] eqn:Ep; simpl.
  - destruct (Session_RunCommand uuid fuel p Command st)
      as [[st1 [output [e|]]]|] eqn:Erun; [| |discriminate].
    + intros [= <- <-].
      split; [|split; [eapply Session_RunCommand_sessions; eassumption
                      |eapply reachable_RunCommand; eassumption]].
      right. left. exists e. split; [reflexivity|].
      destruct (reachable_invariant uuid st Hr) as [Hrun _].
      destruct (Hrun _ _ Ep) as (s & Hs & Hs').
      unfold Session_RunCommand in Erun. rewrite Hs in Erun.
      destruct (RunCommand fuel (uuid (drawn st)) s Command)
        as [[s1 [res err]]|] eqn:Er; [|discriminate].
      injection Erun as _ _ ->.
      apply RunCommand_error in Er.
      destruct Er as [(Hf & _)|(_ & [Hw|Hrd])]; [congruence| |].
      * split; [auto|]. intros He.
        exact (NotRunningError_not_WriteError _ He Hw).
      * split; [auto|]. intros He.
        exact (NotRunningError_not_ReadError _ He Hrd).
    + intros [= <- <-].
      split; [|split; [eapply Session_RunCommand_sessions; eassumption
                      |eapply reachable_RunCommand; eassumption]].
      right. right. exists p, SessionID, Command, output.
      split; [reflexivity|]. split; [assumption|].
      split; [assumption|reflexivity].
  - intros [= <- <-]. split; [left; split; [apply rejected_404|]|]; auto.
Qed.

(** X16. Every reply of [handleEndSession], from a state of the program.
    It is status 405 for a method that is not POST, status 400 for a body
    that does not decode, or status 400 for an empty session identifier;
    or, when the registry does not hold the identifier, status 500 with
    the not-found message, not status 404; in all these cases the state is
    as it was. Or it is the message of success: then the registry held the
    identifier, holds it no more, and the session it referred to is not
    running, its process killed. The state the handler gives is again a
    state of the program. *)
Theorem handleEndSession_replies (r : Request B) (st st' : State W R)
    (replies : list reply) :
  reachable uuid st ->
  handleEndSession decodeEnd r st = (st', replies) ->
  ((((Method r <> MethodPost /\
      replies = [http_Error "Method not allowed" StatusMethodNotAllowed]) \/
     (Method r = MethodPost /\
      (exists e, decodeEnd (Body r) = inl e) /\
      replies = [http_Error "Invalid request body" StatusBadRequest]) \/
     (Method r = MethodPost /\
      decodeEnd (Body r) = inr "" /\
      replies = [http_Error "session_id is required" StatusBadRequest])) /\
    st' = st) \/
   (exists SessionID,
      Method r = MethodPost /\
      decodeEnd (Body r) = inr SessionID /\ SessionID <> "" /\
      sessions st !! SessionID = None /\
      failed "Failed to end session: "
             (Errorf_s "session not found: " SessionID) replies /\
      st' = st) \/
   (exists SessionID p s,
      Method r = MethodPost /\
      decodeEnd (Body r) = inr SessionID /\ SessionID <> "" /\
      sessions st !! SessionID = Some p /\
      sentJSON "message" "Session ended successfully" replies /\
      GetSession SessionID st' = (None, false) /\
      heap st' !! p = Some s /\ Running s = false /\ Cmd s = Killed)) /\
  reachable uuid st'.
Proof.
  intros Hr. unfold handleEndSession.
  destruct (String.eqb_spec (Method r) MethodPost) as [Hm|Hm]; simpl.
  2: { intros [= <- <-]. split; [left|assumption].
       split; [left; auto|reflexivity]. }
  destruct (decodeEnd (Body r)) as [e|SessionID] eqn:Ed.
  { intros [= <- <-]. split; [left|assumption].
    split; [right; left; eauto|reflexivity]. }
  destruct (String.eqb_spec SessionID "") as [->|Hid].
  { intros [= <- <-]. split; [left|assumption].
    split; [right; right; auto|reflexivity]. }
  pose proof (reachable_EndSession uuid SessionID st Hr) as Hr'.
  unfold EndSession in *.
  destruct (sessions st !! SessionID) as [p|] eqn:Ep.
  - intros [= <- <-]. split; [|exact Hr']. right. right.
    destruct (reachable_invariant uuid st Hr) as [Hrun _].
    destruct (Hrun _ _ Ep) as (s & Hs & Hs').
    exists SessionID, p, (terminate s).
    split; [assumption|]. split; [reflexivity|]. split; [assumption|].
    split; [assumption|]. split; [reflexivity|].
    split.
    { unfold GetSession. simpl. rewrite lookup_delete_eq. reflexivity. }
    split.
    { simpl. rewrite lookup_alter_eq, Hs. reflexivity. }
    unfold terminate. rewrite Hs'. split; reflexivity.
  - intros [= <- <-]. split; [|exact Hr]. right. left.
    exists SessionID. split; [assumption|]. split; [reflexivity|].
    split; [assumption|]. split; [assumption|]. split; reflexivity.
Qed.


(** X18. The life of a session through the three handlers. After a start
    that succeeded, a run request with the identifier sent is not turned
    down: it reaches the session, and what comes back is the output or a
    write or read failure. An end request with that identifier succeeds;
    after it, a run request with the identifier is answered with status
    404 and a second end request with status 500, and both leave the state
    as it is. *)
Theorem session_lifecycle (stdin : W) (stdout stderr : R)
    (start run end_ : Request B) (command : string) (st : State W R) :
  let sessionID := uuid (drawn st) in
  let st1 :=
    fst (handleStartSession uuid (Started stdin stdout stderr) start st) in
  let st2 := fst (handleEndSession decodeEnd end_ st1) in
  Method start = MethodPost ->
  Method run = MethodPost -> Method end_ = MethodPost ->
  decodeRun (Body run) = inr (sessionID, command) ->
  decodeEnd (Body end_) = inr sessionID ->
  sessionID <> "" -> command <> "" ->
  (forall fuel st' replies,
      handleRunCommand uuid decodeRun fuel run st1 = Some (st', replies) ->
      (exists output, sentOutput output replies) \/
      (exists e, failed "Failed to execute command: " e replies /\
                 (WriteError e \/ ReadError e))) /\
  sentJSON "message" "Session ended successfully"
           (snd (handleEndSession decodeEnd end_ st1)) /\
  (forall fuel,
      handleRunCommand uuid decodeRun fuel run st2
      = Some (st2, [http_Error "Session not found" StatusNotFound])) /\
  handleEndSession decodeEnd end_ st2
  = (st2, [http_Error ("Failed to end session: session not found: "
                       +:+ sessionID) StatusInternalServerError]).
Proof.
  intros sessionID st1 st2 Hstart Hrun Hend Hdr Hde Hid Hcmd.
  set (p := fresh (dom (heap st))).
  set (s := mkSession sessionID Alive stdin stdout stderr true).
  assert (E1 : st1 = mkState (<[p := s]> (heap st))
                             (<[sessionID := p]> (sessions st))
                             (S (drawn st))).
  { unfold st1, handleStartSession. rewrite (is_POST _ Hstart). reflexivity. }
  assert (Hp : sessions st1 !! sessionID = Some p).
  { rewrite E1. simpl. apply lookup_insert_eq. }
  assert (E2 : handleEndSession decodeEnd end_ st1
               = (mkState (alter terminate p (heap st1))
                          (delete sessionID (sessions st1)) (drawn st1),
                  [Header_Set "Content-Type" "application/json";
                   json_Encode [("message", "Session ended successfully")]])).
  { unfold handleEndSession.
    rewrite (is_POST _ Hend), Hde, (nonempty _ Hid).
    unfold EndSession. rewrite Hp. reflexivity. }
  assert (Hnone : sessions st2 !! sessionID = None).
  { unfold st2. rewrite E2. simpl. apply lookup_delete_eq. }
  split; [|split; [|split]].
  - intros fuel st' replies.
    rewrite (handleRunCommand_found fuel run st1 _ _ p Hrun Hdr Hid Hcmd Hp).
    unfold Session_RunCommand. rewrite E1. cbn [heap sessions drawn].
    rewrite lookup_insert_eq.
    destruct (RunCommand fuel (uuid (S (drawn st))) s command)
      as [[s' [output [e|]]]|] eqn:Er; [| |discriminate].
    + intros [= _ <-]. right. exists e. split; [reflexivity|].
      apply RunCommand_error in Er.
      destruct Er as [(Hf & _)|(_ & He)]; [discriminate Hf|exact He].
    + intros [= _ <-]. left. exists output. reflexivity.
  - rewrite E2. reflexivity.
  - intros fuel. unfold handleRunCommand.
    rewrite (is_POST _ Hrun), Hdr, (nonempty _ Hid), (nonempty _ Hcmd). simpl.
    unfold GetSession. rewrite Hnone. reflexivity.
  - unfold handleEndSession.
    rewrite (is_POST _ Hend), Hde, (nonempty _ Hid).
    unfold EndSession. rewrite Hnone. reflexivity.
Qed.

End HandlerFacts.

(** ** Goroutines: progress, and calls after [EndSession] *)

Section ConcurrencyFacts.

Context {W R : Type} `{WriteCloser W} `{ReadCloser R}.
Context (uuid : nat -> string).

Lemma Running_terminate (s : Session W R) : Running (terminate s) = false.
Proof. unfold terminate. destruct (Running s) eqn:E; [reflexivity|exact E]. Qed.

Lemma pastCheck_holdsLock (at_ : place) :
  pastCheck at_ = true -> holdsLock at_ = true.
Proof. destruct at_; simpl; congruence. Qed.

(** What one step does to the place of its goroutine and to the session. *)
Lemma step_session (c : call) (at_ at' : place) (sh sh' : Shared W R) :
  step uuid c at_ sh = Some (at', sh') ->
  placed (c, at_) = true /\ placed (c, at') = true /\
  (Running (session sh) = false -> Running (session sh') = false) /\
  (at_ = AtLock ->
   session sh' = session sh /\
   forall command, c = CallRunCommand command -> at' = AtCheck) /\
  (pastCheck at' = true ->
   (pastCheck at_ = true /\ Running (session sh') = Running (session sh)) \/
   Running (session sh') = true) /\
  (c = CallEndSession -> hasReturned at' = true ->
   Running (session sh') = false) /\
  (Running (session sh) = false -> pastCheck at_ = false ->
   session sh' = session sh /\
   (at_ = AtCheck ->
    at' = Returned "" (Some (errorString "session is not running")))).
Proof.
  unfold step. destruct at_, c; try discriminate.
  - destruct (mu sh); [discriminate|]. intros [= <- <-]. simpl.
    repeat split; auto; try discriminate.
  - destruct (mu sh); [discriminate|]. intros [= <- <-]. simpl.
    repeat split; auto; try discriminate.
  - destruct (Running (session sh)) eqn:Erun; simpl; intros [= <- <-]; simpl;
      repeat split; auto; try discriminate.
  - destruct (Write _ _) as [w [n [e|]]]; intros [= <- <-]; simpl;
      repeat split; auto; try discriminate.
  - destruct (Read _ _) as [r rd].
    destruct (loopBody marker output rd); intros [= <- <-]; simpl;
      repeat split; auto; try discriminate.
  - intros [= <- <-]. simpl. pose proof (Running_terminate (session sh)).
    repeat split; auto; try discriminate.
    apply terminate_not_running. assumption.
Qed.

(** A goroutine between [Lock] and [Unlock] can make its next step. *)
Lemma holder_steps (c : call) (at_ : place) (sh : Shared W R) :
  placed (c, at_) = true -> holdsLock at_ = true ->
  exists at' sh', step uuid c at_ sh = Some (at', sh').
Proof.
  unfold step. destruct at_, c; simpl; try discriminate; intros _ _.
  - destruct (negb (Running (session sh))); eauto.
  - destruct (Write _ _) as [w [n [e|]]]; eauto.
  - destruct (Read _ _) as [r rd]. destruct (loopBody marker output rd); eauto.
  - eauto.
Qed.

Lemma waiter_steps (c : call) (sh : Shared W R) :
  mu sh = false -> exists at' sh', step uuid c AtLock sh = Some (at', sh').
Proof. intros Emu. unfold step. destruct c; rewrite Emu; eauto. Qed.

Lemma stopped_inv_initial (cfg : Config W R) : initial cfg -> stopped_inv cfg.
Proof.
  intros [_ Hall]. split; [|split].
  - intros _ j t Hj. rewrite (Hall _ _ Hj). reflexivity.
  - intros (i & result & err & Hi). apply Hall in Hi. discriminate.
  - intros j [c at_] Hj. apply Hall in Hj. simpl in Hj. subst at_.
    destruct c; reflexivity.
Qed.

Lemma stopped_inv_step (i : nat) (cfg cfg' : Config W R) :
  exclusive cfg -> stopped_inv cfg -> gstep uuid i cfg = Some cfg' ->
  stopped_inv cfg'.
Proof.
  intros (Hfree & Hone & Hheld) (HL & HK & HP) Hstep.
  apply gstep_inv in Hstep.
  destruct Hstep as (c & at_ & at' & Ei & Es & Et).
  assert (Hlook : forall j t,
             threads cfg' !! j = Some t ->
             (j = i /\ t = (c, at')) \/ (j <> i /\ threads cfg !! j = Some t)).
  { intros j t Hj. rewrite Et in Hj.
    apply list_lookup_insert_Some in Hj.
    destruct Hj as [(-> & <- & _)|[Hne Hj]]; [left|right]; auto. }
  pose proof (step_lock uuid _ _ _ _ _ Es) as Hlock.
  destruct (step_session _ _ _ _ _ Es)
    as (_ & Hpl & Hmono & Hatlock & Hpast & Hend & _).
  split; [|split].
  - intros Hrun j t Hj.
    destruct (Hlook _ _ Hj) as [[-> ->]|[Hne Hj']].
    + simpl. destruct (pastCheck at') eqn:Ep; [|reflexivity].
      destruct (Hpast eq_refl) as [[Hp' Esame]|Htrue]; [|congruence].
      rewrite Esame in Hrun. pose proof (HL Hrun _ _ Ei) as Hn. simpl in Hn.
      congruence.
    + destruct (pastCheck (snd t)) eqn:Ep; [|reflexivity].
      destruct Hlock as [(-> & _)|(Hat & _)].
      * destruct (Hatlock eq_refl) as [Esame _]. rewrite Esame in Hrun.
        rewrite (HL Hrun _ _ Hj') in Ep. discriminate.
      * exfalso. apply Hne.
        exact (Hone _ _ _ _ Hj' Ei (pastCheck_holdsLock _ Ep) Hat).
  - intros (j & result & err & Hj).
    destruct (Hlook _ _ Hj) as [[-> Ht]|[Hne Hj']].
    + injection Ht as <- <-. apply Hend; reflexivity.
    + apply Hmono, HK. exists j, result, err. assumption.
  - intros j t Hj. destruct (Hlook _ _ Hj) as [[-> ->]|[Hne Hj']].
    + assumption.
    + exact (HP _ _ Hj').
Qed.

Lemma stopped_inv_reachable (cfg0 cfg : Config W R) :
  initial cfg0 -> rtc (steps uuid) cfg0 cfg -> exclusive cfg /\ stopped_inv cfg.
Proof.
  intros Hinit Hrtc.
  refine (rtc_ind_r (fun cfg => exclusive cfg /\ stopped_inv cfg) cfg0 _ _
            cfg Hrtc).
  - split; [apply exclusive_initial|apply stopped_inv_initial]; assumption.
  - intros cfg1 cfg2 _ [i Hstep] [IH1 IH2]. split.
    + eapply exclusive_step; eassumption.
    + eapply stopped_inv_step; eassumption.
Qed.

Lemma all_returned_or_not (ts : list (call * place)) :
  (forall i t, ts !! i = Some t -> hasReturned (snd t) = true) \/
  (exists i t, ts !! i = Some t /\ hasReturned (snd t) = false).
Proof.
  induction ts as [|t ts [IH|(i & t' & Hi & Ht')]].
  - left. intros i t Hi. destruct i; discriminate.
  - destruct (hasReturned (snd t)) eqn:Et.
    + left. intros [|i] t' Hi; simpl in Hi.
      * injection Hi as <-. assumption.
      * exact (IH _ _ Hi).
    + right. exists 0, t. auto.
  - right. exists (S i), t'. auto.
Qed.

(** X19. The mutex never blocks the program: from calls that are all
    about to lock it, however the goroutines have been interleaved, either
    every call has returned or some goroutine can make a step. A call that
    waits in [Lock] waits for a goroutine that can move, which unlocks when
    it returns; a write failure, a read failure and the test of the
    running flag all return through the deferred [Unlock]. *)
Theorem goroutines_never_deadlock (cfg0 cfg : Config W R) :
  initial cfg0 ->
  rtc (steps uuid) cfg0 cfg ->
  (forall i t, threads cfg !! i = Some t -> hasReturned (snd t) = true) \/
  (exists i cfg', gstep uuid i cfg = Some cfg').
Proof.
  intros Hinit Hrtc.
  destruct (stopped_inv_reachable _ _ Hinit Hrtc)
    as [(Hfree & _ & Hheld) (_ & _ & HP)].
  assert (Hgo : forall i c at_,
             threads cfg !! i = Some (c, at_) ->
             (exists at' sh', step uuid c at_ (shared cfg) = Some (at', sh')) ->
             exists i cfg', gstep uuid i cfg = Some cfg').
  { intros i c at_ Hi (at' & sh' & Es). exists i. unfold gstep.
    rewrite Hi, Es. eauto. }
  destruct (mu (shared cfg)) eqn:Emu.
  - right. destruct (Hheld eq_refl) as (i & [c at_] & Hi & Hh).
    apply (Hgo _ _ _ Hi). apply holder_steps; [exact (HP _ _ Hi)|exact Hh].
  - destruct (all_returned_or_not (threads cfg)) as [Hall|(i & [c at_] & Hi & Hn)].
    + left. assumption.
    + right. apply (Hgo _ _ _ Hi).
      pose proof (Hfree eq_refl _ _ Hi) as Hh. pose proof (HP _ _ Hi) as Hpl.
      simpl in *. destruct at_; try discriminate; destruct c; try discriminate;
        apply waiter_steps; assumption.
Qed.



End ConcurrencyFacts.

(** ** The further properties on the examples *)

Lemma CreateSession_failure_witness :
  errorString
    "failed to start powershell: exec: powershell.exe: executable file not found in %PATH%"
  = Errorf_v "failed to start powershell: "
      (errorString "exec: powershell.exe: executable file not found in %PATH%") /\
  fst (snd (CreateSession exampleUUID noPowershell state0)) = None /\
  heap (fst (CreateSession exampleUUID noPowershell state0)) = heap state0 /\
  sessions (fst (CreateSession exampleUUID noPowershell state0))
  = sessions state0 /\
  drawn (fst (CreateSession exampleUUID noPowershell state0))
  = S (drawn state0).
Proof.
  apply (CreateSession_failure exampleUUID noPowershell state0
           (errorString
              "failed to start powershell: exec: powershell.exe: executable file not found in %PATH%")).
  reflexivity.
Defined.

Lemma reachable_collidedState : reachable collidingUUID collidedState.
Proof. apply reachable_CreateSession, reachable_new. Qed.

Lemma CreateSession_collision_leaks_witness :
  exists p s,
    p <> 1%positive /\
    GetSession sessionID1 collidedTwice = (Some p, true) /\
    heap collidedTwice !! 1%positive = Some s /\
    Running s = true /\ Cmd s = Alive /\
    (forall sessionID, sessions collidedTwice !! sessionID <> Some 1%positive) /\
    (forall sessionID,
        heap (fst (EndSession sessionID collidedTwice)) !! 1%positive = Some s).
Proof.
  refine (CreateSession_collision_leaks collidingUUID openPipe
            (mkScript cutOutput) (mkScript []) collidedState 1%positive
            reachable_collidedState _).
  vm_compute. reflexivity.
Defined.

Lemma session_ID_immutable_witness :
  (exists s, heap state1 !! 1%positive = Some s /\ ID s = sessionID1) /\
  (exists s', heap state2 !! 1%positive = Some s' /\
              ID s' = ID (exampleSession openPipe wholeOutput)).
Proof.
  destruct (session_ID_immutable exampleUUID state1 reachable_state1)
    as [Hget Hkeep].
  split.
  - apply Hget. vm_compute. reflexivity.
  - apply (Hkeep state2 1%positive (exampleSession openPipe wholeOutput)).
    + apply rtc_once. apply operation_EndSession.
    + vm_compute. reflexivity.
Defined.

Lemma reachable_state2 : reachable exampleUUID state2.
Proof. apply reachable_EndSession, reachable_state1. Qed.

Lemma process_alive_iff_running_witness :
  (Running stoppedSession = true <-> Cmd stoppedSession = Alive) /\
  (Running stoppedSession = false <-> Cmd stoppedSession = Killed).
Proof.
  apply (process_alive_iff_running exampleUUID state2 1%positive stoppedSession
           reachable_state2).
  vm_compute. reflexivity.
Defined.

Lemma terminated_session_frozen_witness :
  heap state4 !! 1%positive = Some stoppedSession.
Proof.
  apply (terminated_session_frozen exampleUUID state2 state4 1%positive
           stoppedSession).
  - apply rtc_once. apply operation_CreateSession.
  - vm_compute. reflexivity.
  - reflexivity.
Defined.

Lemma RunCommand_failure_kinds_witness :
  "" = "" /\
  ((NotRunningError (errorString "failed to write command: broken pipe") /\
    ~ WriteError (errorString "failed to write command: broken pipe") /\
    ~ ReadError (errorString "failed to write command: broken pipe")) \/
   (WriteError (errorString "failed to write command: broken pipe") /\
    ~ NotRunningError (errorString "failed to write command: broken pipe") /\
    ~ ReadError (errorString "failed to write command: broken pipe")) \/
   (ReadError (errorString "failed to write command: broken pipe") /\
    ~ NotRunningError (errorString "failed to write command: broken pipe") /\
    ~ WriteError (errorString "failed to write command: broken pipe"))).
Proof.
  refine (RunCommand_failure_kinds 1 marker1
            (exampleSession brokenPipe wholeOutput) "dir"
            (exampleSession brokenPipe wholeOutput) ""
            (errorString "failed to write command: broken pipe") _).
  vm_compute. reflexivity.
Defined.

Lemma RunCommand_read_failure_drops_output_witness :
  option_map snd
    (RunCommand 2 marker1 (exampleSession openPipe failingOutput) "echo hello")
  = Some ("", Some (errorString
                      "failed to read output: read |0: file already closed")).
Proof.
  refine (RunCommand_read_failure_drops_output marker1 "echo hello"
            (exampleSession openPipe failingOutput) 1 0
            (mkScript [(list_byte_of_string marker1,
                        Some (errorString "read |0: file already closed"))])
            (list_byte_of_string "hello") (list_byte_of_string marker1)
            "read |0: file already closed" _ _ _ _).
  - reflexivity.
  - reflexivity.
  - vm_compute. reflexivity.
  - vm_compute. reflexivity.
Defined.

Lemma RunCommand_result_bounded_witness :
  (Z.of_nat (String.length "hello") <= maxOutput + Z.of_nat bufferSize)%Z.
Proof.
  refine (RunCommand_result_bounded 1 marker1
            (exampleSession openPipe wholeOutput) "echo hello"
            (mkSession sessionID1 Alive
               (mkPipe (list_byte_of_string (fullCommand "echo hello" marker1))
                       false false)
               (mkScript []) (mkScript []) true)
            "hello" _).
  vm_compute. reflexivity.
Defined.

Lemma RunCommand_returns_at_occurrence_in_read_witness :
  option_map snd
    (RunCommand 1 marker1 (exampleSession openPipe wholeOutput) "echo hello")
  = Some (trimTerminator
            (string_of_list_byte
               (firstn 7
                  ([] ++ list_byte_of_string
                           ("hello" +:+ CRLF +:+ marker1 +:+ String LF "")))),
          None).
Proof.
  refine (RunCommand_returns_at_occurrence_in_read marker1 "echo hello"
            (exampleSession openPipe wholeOutput) 0 0 (mkScript wholeOutput)
            [] (list_byte_of_string
                  ("hello" +:+ CRLF +:+ marker1 +:+ String LF ""))
            None 7 _ _ _ _ _ _ _ _ _).
  - reflexivity.
  - reflexivity.
  - reflexivity.
  - reflexivity.
  - reflexivity.
  - vm_compute. lia.
  - apply occursAtb_spec. vm_compute. reflexivity.
  - simpl. lia.
  - intros j Hj Hocc. apply occursAtb_spec in Hocc. simpl in Hj.
    destruct j as [|[|[|[|[|[|[|j]]]]]]];
      try (vm_compute in Hocc; discriminate Hocc).
    lia.
Defined.

Lemma Session_RunCommand_frame_witness :
  sessions state3 = sessions state1 /\
  (forall q, q <> 1%positive -> heap state3 !! q = heap state1 !! q).
Proof.
  destruct (Session_RunCommand_frame exampleUUID 1 1%positive "echo hello"
              state1 state3 ("hello", None)) as (Hs & Hq & _).
  - vm_compute. reflexivity.
  - split; assumption.
Defined.

Lemma handlers_only_POST_witness :
  handleStartSession exampleUUID noPowershell getRequest state1
  = (state1, [http_Error "Method not allowed" StatusMethodNotAllowed]) /\
  handleRunCommand exampleUUID exampleDecodeRun 1 getRequest state1
  = Some (state1, [http_Error "Method not allowed" StatusMethodNotAllowed]) /\
  handleEndSession exampleDecodeEnd getRequest state1
  = (state1, [http_Error "Method not allowed" StatusMethodNotAllowed]).
Proof.
  apply (handlers_only_POST exampleUUID exampleDecodeRun exampleDecodeEnd
           noPowershell 1 getRequest state1).
  discriminate.
Defined.

Lemma handleRunCommand_validation_witness :
  handleRunCommand exampleUUID exampleDecodeRun 1 runRequest state2
  = Some (state2, [http_Error "Session not found" StatusNotFound]).
Proof.
  destruct (handleRunCommand_validation exampleUUID exampleDecodeRun 1
              runRequest state2 eq_refl) as (_ & _ & H404).
  apply (H404 sessionID1 "echo hello").
  - reflexivity.
  - discriminate.
  - discriminate.
  - vm_compute. reflexivity.
Defined.

Lemma handleRunCommand_replies_witness :
  sessions state3 = sessions state1 /\ reachable exampleUUID state3.
Proof.
  destruct (handleRunCommand_replies exampleUUID exampleDecodeRun 1 runRequest
              state1 state3
              [Header_Set "Content-Type" "text/plain; charset=utf-8";
               ResponseWriter_Write (list_byte_of_string "hello")]
              reachable_state1) as (_ & Hs & Hr).
  - vm_compute. reflexivity.
  - split; assumption.
Defined.

Lemma handleEndSession_replies_witness :
  reachable exampleUUID state2.
Proof.
  destruct (handleEndSession_replies exampleUUID exampleDecodeEnd endRequest
              state1 state2
              [Header_Set "Content-Type" "application/json";
               json_Encode [("message", "Session ended successfully")]]
              reachable_state1) as (_ & Hr).
  - vm_compute. reflexivity.
  - exact Hr.
Defined.


Lemma session_lifecycle_witness :
  sentJSON "message" "Session ended successfully"
           (snd (handleEndSession exampleDecodeEnd endRequest state1)) /\
  (forall fuel,
      handleRunCommand exampleUUID exampleDecodeRun fuel runRequest state2
      = Some (state2, [http_Error "Session not found" StatusNotFound])) /\
  handleEndSession exampleDecodeEnd endRequest state2
  = (state2, [http_Error ("Failed to end session: session not found: "
                          +:+ sessionID1) StatusInternalServerError]).
Proof.
  destruct (session_lifecycle exampleUUID exampleDecodeRun exampleDecodeEnd
              openPipe (mkScript wholeOutput) (mkScript [])
              startRequest runRequest endRequest "echo hello" state0)
    as (_ & Hend & Hrun & Hagain).
  - reflexivity.
  - reflexivity.
  - reflexivity.
  - reflexivity.
  - reflexivity.
  - discriminate.
  - discriminate.
  - split; [exact Hend|]. split; [exact Hrun|exact Hagain].
Defined.

Lemma initial_twoCalls : initial twoCalls.
Proof.
  split; [reflexivity|]. intros [|[|i]] t; simpl; intros [= <-]; reflexivity.
Qed.

Lemma goroutines_never_deadlock_witness :
  (forall i t, threads firstReading !! i = Some t ->
               hasReturned (snd t) = true) \/
  (exists i cfg', gstep exampleUUID i firstReading = Some cfg').
Proof.
  apply (goroutines_never_deadlock exampleUUID twoCalls firstReading).
  - exact initial_twoCalls.
  - apply (run_steps exampleUUID [0; 0; 0]). vm_compute. reflexivity.
Defined.


